(** * athena_test_runner: the job registry, the polling cycle and the
      interrupt path of [index.js]

    The runner starts one Athena query per file, keeps the resulting task
    objects in a dictionary, polls the service for the queued and running
    ones, and writes the dictionary's values to [results.json] when nothing
    is left to poll or when the user interrupts the run.

    JavaScript objects that are shared between variables (the dictionary
    built by [indexTasks], which [jobIndex], [jobs.runs] and the global
    [INDEX] all point to) live in a store and are handled through
    references.  Functions that read or write the store, or that can throw,
    are written in a small state-and-exception monad. *)

From stdpp Require Import base option list strings.
From Stdlib Require Import ZArith Ascii DecimalString DecimalN.

Local Open Scope Z_scope.
Local Open Scope string_scope.
Local Open Scope list_scope.

(** ** Tasks *)

(** The states the service reports for a query execution; the runner
    compares them with the literals of the same names. *)
Inductive Status := QUEUED | RUNNING | SUCCEEDED | FAILED | CANCELLED.

#[global] Instance Status_eq_dec : EqDecision Status.
Proof. solve_decision. Defined.

(** A time stamp of the service, in the form it has in the results file. *)
Definition DateTime := string.

(** A task object: the file object of [readFiles] ([name], [query]) with
    the properties [executeQueries], [monitor] and [consolidateJobs] add.
    [None] is a property that reads as [undefined]. *)
Record Task := mkTask {
  name : string;
  query : string;
  id : option string;
  status : Status;
  error : option string;
  starttime : option DateTime;
  endtime : option DateTime;
  runtime : option Z;
  scanned : option Z
}.

#[global] Instance Task_eq_dec : EqDecision Task.
Proof. solve_decision. Defined.

Definition set_status (s : Status) (t : Task) : Task :=
  mkTask (name t) (query t) (id t) s (error t)
         (starttime t) (endtime t) (runtime t) (scanned t).

Definition set_error (e : option string) (t : Task) : Task :=
  mkTask (name t) (query t) (id t) (status t) e
         (starttime t) (endtime t) (runtime t) (scanned t).

Definition set_timing (st en : option DateTime) (rt sc : option Z) (t : Task) : Task :=
  mkTask (name t) (query t) (id t) (status t) (error t) st en rt sc.

(** [status == "QUEUED" || status == "RUNNING"] *)
Definition is_running (s : Status) : bool :=
  match s with QUEUED | RUNNING => true | _ => false end.

(** [status == "SUCCEEDED" || status == "RUNNING"] *)
Definition has_statistics (s : Status) : bool :=
  match s with SUCCEEDED | RUNNING => true | _ => false end.

Definition is_terminal (s : Status) : bool :=
  match s with SUCCEEDED | FAILED | CANCELLED => true | _ => false end.

(** ** Dictionaries and the store *)

(** A dictionary object: its own properties in insertion order, which is
    the order of [Object.keys] for keys that are not array indices (the
    identifiers of the service are UUIDs).  A slot holds a task object or
    [undefined] ([None]).  Every slot of a dictionary built by [indexTasks]
    holds an object of its own, which is why a slot is represented by the
    contents of its object. *)
Abbreviation Dict := (list (string * option Task)).

(** [d[k]]: [undefined] when [d] has no property [k]. *)
Fixpoint dict_get (d : Dict) (k : string) : option Task :=
  match d with
  | [] => None
  | (k', v) :: d' => if decide (k' = k) then v else dict_get d' k
  end.

(** [d[k] = v]: overwrites in place, or appends a new property. *)
Fixpoint dict_set (d : Dict) (k : string) (v : option Task) : Dict :=
  match d with
  | [] => [(k, v)]
  | (k', v') :: d' =>
      if decide (k' = k) then (k, v) :: d' else (k', v') :: dict_set d' k v
  end.

Definition dict_keys (d : Dict) : list string := fst <$> d.
Definition dict_values (d : Dict) : list (option Task) := snd <$> d.

(** The key a property access [d[v]] uses for the value [v]. *)
Definition ToPropertyKey (v : option string) : string :=
  match v with Some s => s | None => "undefined" end.

(** References to dictionary objects; a variable holds a reference or
    [undefined]. *)
Abbreviation ref := nat.
Abbreviation JsRef := (option ref).
Abbreviation Store := (list Dict).

(** ** The monad *)

Inductive JsError := TypeError | ServiceError (message : string).

Inductive completion (A : Type) :=
| Normal (a : A)
| Throw (e : JsError).
Arguments Normal {A} a.
Arguments Throw {A} e.

Definition JS (A : Type) : Type := Store -> completion A * Store.

Definition ret {A} (a : A) : JS A := fun st => (Normal a, st).

Definition throw {A} (e : JsError) : JS A := fun st => (Throw e, st).

Definition bind {A B} (m : JS A) (k : A -> JS B) : JS B :=
  fun st =>
    match m st with
    | (Normal a, st') => k a st'
    | (Throw e, st') => (Throw e, st')
    end.

Declare Scope js_scope.
Delimit Scope js_scope with js.
Notation "'let!' x ':=' m 'in' k" := (bind m (fun x => k))
  (at level 10, x name, m at level 100, k at level 200) : js_scope.
Notation "m ';;;' k" := (bind m (fun _ => k))
  (at level 100, k at level 200, right associativity) : js_scope.
Local Open Scope js_scope.

(** Dereferencing: a property access on [undefined] throws. *)
Definition deref (r : JsRef) : JS Dict :=
  fun st =>
    match r with
    | None => (Throw TypeError, st)
    | Some a =>
        match st !! a with
        | Some d => (Normal d, st)
        | None => (Throw TypeError, st)
        end
    end.

(** [Object.keys(r)] *)
Definition Object_keys (r : JsRef) : JS (list string) :=
  let! d := deref r in ret (dict_keys d).

(** [Object.values(r)] *)
Definition Object_values (r : JsRef) : JS (list (option Task)) :=
  let! d := deref r in ret (dict_values d).

(** [r[k]] *)
Definition get (r : JsRef) (k : string) : JS (option Task) :=
  let! d := deref r in ret (dict_get d k).

(** [r[k] = v] *)
Definition put (r : JsRef) (k : string) (v : option Task) : JS unit :=
  fun st =>
    match r with
    | None => (Throw TypeError, st)
    | Some a =>
        match st !! a with
        | Some d => (Normal tt, <[a := dict_set d k v]> st)
        | None => (Throw TypeError, st)
        end
    end.

(** Reading a property of a slot value: throws on [undefined]. *)
Definition to_object (v : option Task) : JS Task :=
  match v with
  | Some t => ret t
  | None => throw TypeError
  end.

(** [{}] *)
Definition new_object : JS JsRef :=
  fun st => (Normal (Some (length st)), st ++ [[]]).

(** [l.forEach(body)], and the [for] loops over an array *)
Fixpoint forEach {A} (l : list A) (body : A -> JS unit) : JS unit :=
  match l with
  | [] => ret tt
  | x :: l' => body x ;;; forEach l' body
  end.

(** ** Submission *)

(** A file object of [readFiles]. *)
Record File := mkFile { file_name : string; file_query : string }.

(** What the callback of [athena.startQueryExecution] receives: an error
    with its message, or the results with the identifier of the query. *)
Inductive StartOutcome :=
| StartError (message : string)
| StartResults (QueryExecutionId : string).

(** The callback of [startQueryExecution] in [executeQueries], for one
    file: it adds [status] and [error], or [id] and [status], and resolves
    with the file object. *)
Definition startQueryExecution_callback (file : File) (o : StartOutcome) : Task :=
  match o with
  | StartError message =>
      mkTask (file_name file) (file_query file) None FAILED (Some message)
             None None None None
  | StartResults qid =>
      mkTask (file_name file) (file_query file) (Some qid) QUEUED None
             None None None None
  end.

(** [executeQueries(files)]: every file comes with the outcome of its own
    start request; [Promise.all] keeps the order of [files]. *)
Definition executeQueries (files : list (File * StartOutcome)) : list Task :=
  (fun fo => startQueryExecution_callback (fst fo) (snd fo)) <$> files.

(** [indexTasks(tasks)] *)
Definition indexTasks (tasks : list Task) : JS JsRef :=
  let! idx := new_object in
  forEach tasks (fun task => put idx (ToPropertyKey (id task)) (Some task)) ;;;
  ret idx.

(** ** Polling *)

(** The loop of [getRunningJobs] over [_ids], with the array [ids] built so
    far. *)
Fixpoint getRunningJobs_loop (tasks : JsRef) (_ids : list string)
    (ids : list (option string)) : JS (list (option string)) :=
  match _ids with
  | [] => ret ids
  | k :: rest =>
      let! v := get tasks k in
      let! task := to_object v in
      if is_running (status task)
      then getRunningJobs_loop tasks rest (ids ++ [id task])
      else getRunningJobs_loop tasks rest ids
  end.

(** [getRunningJobs(tasks)] *)
Definition getRunningJobs (tasks : JsRef) : JS (list (option string)) :=
  let! _ids := Object_keys tasks in
  getRunningJobs_loop tasks _ids [].

(** Modelled from the spec: the item type of the service's batched status
    call, which the source only reads ([item.QueryExecutionId],
    [item.Status.State], [item.Status.SubmissionDateTime],
    [item.Status.CompletionDateTime],
    [item.Statistics.EngineExecutionTimeInMillis],
    [item.Statistics.DataScannedInBytes]); the spec's interface section
    gives it as an identifier, a status and four optional values.  The
    nested [Status] and [Statistics] objects are taken as present. *)
Record QueryExecution := mkQueryExecution {
  QueryExecutionId : string;
  State : Status;
  SubmissionDateTime : option DateTime;
  CompletionDateTime : option DateTime;
  EngineExecutionTimeInMillis : option Z;
  DataScannedInBytes : option Z
}.

(** An entry of [results.UnprocessedQueryExecutionIds]. *)
Record UnprocessedQueryExecutionId := mkUnprocessed {
  UnprocessedId : string;
  ErrorMessage : string
}.

Record BatchResults := mkBatchResults {
  QueryExecutions : list QueryExecution;
  UnprocessedQueryExecutionIds : list UnprocessedQueryExecutionId
}.

(** What the callback of [athena.batchGetQueryExecution] receives. *)
Inductive BatchOutcome :=
| BatchError (message : string)
| BatchOk (results : BatchResults).

(** The object [monitor] resolves with. *)
Record Jobs := mkJobs {
  runs : JsRef;
  failed : list UnprocessedQueryExecutionId
}.

(** The body of [results.QueryExecutions.forEach] in [monitor]. *)
Definition monitor_item (tasks : JsRef) (item : QueryExecution) : JS unit :=
  let! v := get tasks (QueryExecutionId item) in
  let! t := to_object v in
  let t := set_status (State item) t in
  let t :=
    if has_statistics (status t)
    then set_timing (SubmissionDateTime item) (CompletionDateTime item)
                    (EngineExecutionTimeInMillis item) (DataScannedInBytes item) t
    else t in
  put tasks (QueryExecutionId item) (Some t).

(** How a promise settles. *)
Inductive Settled (A : Type) :=
| Resolved (a : A)
| Rejected (e : JsError).
Arguments Resolved {A} a.
Arguments Rejected {A} e.

(** The callback of [batchGetQueryExecution] in [monitor].  An exception
    thrown by the loop leaves the callback: the promise is not settled. *)
Definition monitor_callback (tasks : JsRef) (o : BatchOutcome) : JS (Settled Jobs) :=
  match o with
  | BatchError message => ret (Rejected (ServiceError message))
  | BatchOk results =>
      forEach (QueryExecutions results) (monitor_item tasks) ;;;
      ret (Resolved (mkJobs tasks (UnprocessedQueryExecutionIds results)))
  end.

(** What the executor of [monitor]'s promise does before it returns: it
    issues the batched call for [ids], or resolves with [undefined]. *)
Inductive MonitorStart :=
| CallIssued (ids : list (option string))
| ResolvedUndefined.

Definition monitor (tasks : JsRef) : JS MonitorStart :=
  let! ids := getRunningJobs tasks in
  if (0 <? length ids)%nat then ret (CallIssued ids) else ret ResolvedUndefined.

(** ** Consolidation *)

(** The body of [jobs.failed.forEach] in [consolidateJobs]: two property
    writes on [jobIndex[i.QueryExecutionId]]. *)
Definition consolidate_failed (jobIndex : JsRef) (i : UnprocessedQueryExecutionId) : JS unit :=
  let! v := get jobIndex (UnprocessedId i) in
  let! t := to_object v in
  put jobIndex (UnprocessedId i) (Some (set_status FAILED t)) ;;;
  let! v := get jobIndex (UnprocessedId i) in
  let! t := to_object v in
  put jobIndex (UnprocessedId i) (Some (set_error (Some (ErrorMessage i)) t)).

(** [consolidateJobs(jobIndex, jobs)] *)
Definition consolidateJobs (jobIndex : JsRef) (jobs : Jobs) : JS JsRef :=
  let! ids := Object_keys jobIndex in
  forEach ids (fun k => let! v := get (runs jobs) k in put jobIndex k v) ;;;
  forEach (failed jobs) (consolidate_failed jobIndex) ;;;
  ret jobIndex.

(** ** The results document *)

(** A JSON value: what [JSON.stringify] serializes and what [JSON.parse]
    returns.  Numbers are the integers the service reports. *)
#[warnings="-register-all"]
Inductive json :=
| JNull
| JNumber (n : Z)
| JString (s : string)
| JArray (l : list json)
| JObject (l : list (string * json)).

(** *** The text of a JSON value

    The text is built in front of the text that follows it.  Strings are
    sequences of bytes, in the UTF-8 encoding in which [writeFileSync]
    writes them: [JSON.stringify] escapes the quote, the backslash and the
    control characters, and leaves every other character as it is. *)

(** The digit of a value below sixteen, in lower case. *)
Definition hex_digit (n : nat) : ascii :=
  match n with
  | 0 => "0" | 1 => "1" | 2 => "2" | 3 => "3" | 4 => "4" | 5 => "5" | 6 => "6"
  | 7 => "7" | 8 => "8" | 9 => "9" | 10 => "a" | 11 => "b" | 12 => "c"
  | 13 => "d" | 14 => "e" | _ => "f"
  end%nat%char.

(** A character of a string, quoted as [JSON.stringify] quotes it, in
    front of [rest]. *)
Definition quote_char (c : ascii) (rest : string) : string :=
  if Ascii.eqb c "034" then String "\" (String "034" rest)
  else if Ascii.eqb c "\" then String "\" (String "\" rest)
  else if Ascii.eqb c "008" then String "\" (String "b" rest)
  else if Ascii.eqb c "009" then String "\" (String "t" rest)
  else if Ascii.eqb c "010" then String "\" (String "n" rest)
  else if Ascii.eqb c "012" then String "\" (String "f" rest)
  else if Ascii.eqb c "013" then String "\" (String "r" rest)
  else if (nat_of_ascii c <? 32)%nat
       then String "\" (String "u" (String "0" (String "0"
              (String (hex_digit (nat_of_ascii c / 16))
                 (String (hex_digit (nat_of_ascii c mod 16)) rest)))))
       else String c rest.

Fixpoint quote_chars (s : string) (rest : string) : string :=
  match s with
  | EmptyString => rest
  | String c s' => quote_char c (quote_chars s' rest)
  end.

Definition quote_string (s : string) (rest : string) : string :=
  String "034" (quote_chars s (String "034" rest)).

Definition number_text (n : Z) (rest : string) : string :=
  if (n <? 0)%Z
  then String "-" (NilEmpty.string_of_uint (N.to_uint (Z.abs_N n)) ++ rest)
  else NilEmpty.string_of_uint (N.to_uint (Z.to_N n)) ++ rest.

(** The elements of an array or the members of an object after the first,
    each behind a comma, and the closing bracket. *)
Definition tail_text {A} (item : A -> string -> string) (close : ascii)
    (rest : string) : list A -> string :=
  fix go (l : list A) : string :=
    match l with
    | [] => String close rest
    | x :: l' => String "," (item x (go l'))
    end.

Definition sequence_text {A} (item : A -> string -> string) (open close : ascii)
    (l : list A) (rest : string) : string :=
  String open
    match l with
    | [] => String close rest
    | x :: l' => item x (tail_text item close rest l')
    end.

(** The text of a JSON value, in front of [rest]. *)
Fixpoint json_text (j : json) (rest : string) : string :=
  match j with
  | JNull => String "n" (String "u" (String "l" (String "l" rest)))
  | JNumber n => number_text n rest
  | JString s => quote_string s rest
  | JArray l => sequence_text json_text "[" "]" l rest
  | JObject l =>
      sequence_text (fun kv rest => quote_string kv.1 (String ":" (json_text kv.2 rest)))
                    "{" "}" l rest
  end.

(** The text of a JSON value. *)
Definition JSON_text (j : json) : string := json_text j EmptyString.


(** *** The value [JSON.stringify] serializes *)

Definition Status_literal (s : Status) : string :=
  match s with
  | QUEUED => "QUEUED"
  | RUNNING => "RUNNING"
  | SUCCEEDED => "SUCCEEDED"
  | FAILED => "FAILED"
  | CANCELLED => "CANCELLED"
  end.

(** A property of an object under [JSON.stringify]: one whose value is
    [undefined] is left out. *)
Definition property {A} (k : string) (enc : A -> json) (v : option A)
    : list (string * json) :=
  match v with
  | Some a => [(k, enc a)]
  | None => []
  end.

(** A task object, its properties in the order in which the program
    creates them. *)
Definition json_of_task (t : Task) : json :=
  JObject
    ([("name", JString (name t)); ("query", JString (query t))]
     ++ property "id" JString (id t)
     ++ [("status", JString (Status_literal (status t)))]
     ++ property "starttime" JString (starttime t)
     ++ property "endtime" JString (endtime t)
     ++ property "runtime" JNumber (runtime t)
     ++ property "scanned" JNumber (scanned t)
     ++ property "error" JString (error t)).

(** An array element: [undefined] is written as [null]. *)
Definition json_of_element (v : option Task) : json :=
  match v with
  | Some t => json_of_task t
  | None => JNull
  end.

Definition json_of_values (values : list (option Task)) : json :=
  JArray (json_of_element <$> values).

(** [JSON.stringify(values)] for an array of task objects *)
Definition JSON_stringify (values : list (option Task)) : string :=
  JSON_text (json_of_values values).

(** ** The process *)

(** What the process does to the outside: calls of the service, the
    results file, the status screen, the error log, and its exit. *)
Inductive Action :=
| batchGetQueryExecution (ids : list (option string))
| stopQueryExecution (id : option string)
| writeFileSync (data : string)
| draw_screen (rows : list Task)
| console_log (e : JsError)
| process_exit (code : Z).

(** The rows [draw] prints, one for every key: it reads [r[id].name],
    [.status], [.runtime] and [.scanned], and throws where a slot is
    [undefined]. *)
Fixpoint draw_rows (r : JsRef) (ks : list string) : JS (list Task) :=
  match ks with
  | [] => ret []
  | k :: ks' =>
      let! v := get r k in
      let! item := to_object v in
      let! rest := draw_rows r ks' in
      ret (item :: rest)
  end.

(** [draw(r)] *)
Definition draw (r : JsRef) : JS Action :=
  let! ks := Object_keys r in
  let! rows := draw_rows r ks in
  ret (draw_screen rows).

(** [finishUp(jobs)]: writes the values of [jobs] to the results file and
    exits with code 0. *)
Definition finishUp (jobs : JsRef) : JS (list Action) :=
  let! values := Object_values jobs in
  ret [writeFileSync (JSON_stringify values); process_exit 0].

Inductive ExitStatus :=
| Exited (code : Z)
| UncaughtException (e : JsError).

(** The state of the running process: the store, the variable [jobIndex]
    that [run] assigns, the global [INDEX], the requests that wait for
    their callback, and how the process ended once it has. *)
Record Process := mkProcess {
  store : Store;
  jobIndex : JsRef;
  INDEX : JsRef;
  poll_pending : option (list (option string));
  stop_pending : option (list (option string));
  exited : option ExitStatus
}.

(** What the event loop runs next. *)
Inductive Event :=
| Tick
| BatchReturns (o : BatchOutcome)
| SIGINT
| StopReturns (id : option string) (err : option string).

(** The [catch] of the interval callback: log and exit with code 1. *)
Definition monitor_error (p : Process) (st : Store) (e : JsError)
    : Process * list Action :=
  (mkProcess st (jobIndex p) (INDEX p) None (stop_pending p) (Some (Exited 1)),
   [console_log e; process_exit 1]).

(** The interval callback up to its [await]: [monitor(jobIndex)], and
    [finishUp(jobIndex)] when the promise resolved with [undefined]. *)
Definition interval_callback (p : Process) : Process * list Action :=
  match monitor (jobIndex p) (store p) with
  | (Normal (CallIssued ids), st) =>
      (mkProcess st (jobIndex p) (INDEX p) (Some ids) (stop_pending p) None,
       [batchGetQueryExecution ids])
  | (Normal ResolvedUndefined, st) =>
      match finishUp (jobIndex p) st with
      | (Normal acts, st') =>
          (mkProcess st' (jobIndex p) (INDEX p) None (stop_pending p)
                     (Some (Exited 0)), acts)
      | (Throw e, st') => monitor_error p st' e
      end
  | (Throw e, st) => monitor_error p st e
  end.

(** The interval callback after its [await], when the promise resolved
    with [jobs]: consolidate, publish the dictionary in [INDEX], draw. *)
Definition interval_resume (p : Process) (st : Store) (jobs : Jobs)
    : Process * list Action :=
  match consolidateJobs (jobIndex p) jobs st with
  | (Normal ji, st1) =>
      match draw ji st1 with
      | (Normal a, st2) =>
          (mkProcess st2 ji ji None (stop_pending p) None, [a])
      | (Throw e, st2) =>
          (mkProcess st2 ji ji None (stop_pending p) (Some (Exited 1)),
           [console_log e; process_exit 1])
      end
  | (Throw e, st1) => monitor_error p st1 e
  end.

(** The callback of the batched call, and what follows from how it
    settles the promise of [monitor]. *)
Definition batch_returns (p : Process) (o : BatchOutcome) : Process * list Action :=
  match monitor_callback (jobIndex p) o (store p) with
  | (Normal (Resolved jobs), st) => interval_resume p st jobs
  | (Normal (Rejected e), st) => monitor_error p st e
  | (Throw e, st) =>
      (mkProcess st (jobIndex p) (INDEX p) None (stop_pending p)
                 (Some (UncaughtException e)), [])
  end.

(** The [then] of [Promise.all(p)] in the interrupt handler:
    [finishUp(INDEX)], and [process.exit(0)] in its [catch]. *)
Definition stops_resolved (p : Process) : Process * list Action :=
  match finishUp (INDEX p) (store p) with
  | (Normal acts, st) =>
      (mkProcess st (jobIndex p) (INDEX p) (poll_pending p) (Some [])
                 (Some (Exited 0)), acts)
  | (Throw e, st) =>
      (mkProcess st (jobIndex p) (INDEX p) (poll_pending p) (Some [])
                 (Some (Exited 0)), [process_exit 0])
  end.

(** The handler of [SIGINT]: one stop request for every identifier
    [getRunningJobs(INDEX)] returns.  With no request to wait for,
    [Promise.all] is resolved at once. *)
Definition sigint_handler (p : Process) : Process * list Action :=
  match getRunningJobs (INDEX p) (store p) with
  | (Normal ids, st) =>
      let requests := stopQueryExecution <$> ids in
      match ids with
      | [] =>
          let '(p', acts) := stops_resolved p in (p', requests ++ acts)
      | _ :: _ =>
          (mkProcess st (jobIndex p) (INDEX p) (poll_pending p) (Some ids) None,
           requests)
      end
  | (Throw e, st) =>
      (mkProcess st (jobIndex p) (INDEX p) (poll_pending p) (stop_pending p)
                 (Some (UncaughtException e)), [])
  end.

(** Removes the first occurrence of [k]. *)
Fixpoint remove_first (k : option string) (l : list (option string))
    : list (option string) :=
  match l with
  | [] => []
  | x :: l' => if decide (x = k) then l' else x :: remove_first k l'
  end.

(** The callback of a stop request: it resolves its promise whatever
    [err] is; the last one resolves [Promise.all]. *)
Definition stop_returns (p : Process) (waiting : list (option string))
    (k : option string) (err : option string) : Process * list Action :=
  match remove_first k waiting with
  | [] => stops_resolved p
  | rest =>
      (mkProcess (store p) (jobIndex p) (INDEX p) (poll_pending p) (Some rest) None,
       [])
  end.

(** Modelled from the spec: when the event loop can run an event.  The
    timer of the [asyncinterval] package is not part of the source; the
    spec has one cycle at a time, so the timer fires only when no batched
    call is in flight.  Nothing in the source clears the timer, so it also
    fires while stop requests wait for their callbacks.  A callback runs
    for a request that is waiting for it, and one interrupt is delivered.
    Nothing runs after the exit. *)
Definition step (p : Process) (e : Event) : option (Process * list Action) :=
  match exited p with
  | Some _ => None
  | None =>
      match e with
      | Tick =>
          match poll_pending p with
          | None => Some (interval_callback p)
          | Some _ => None
          end
      | BatchReturns o =>
          match poll_pending p with
          | Some _ => Some (batch_returns p o)
          | None => None
          end
      | SIGINT =>
          match stop_pending p with
          | None => Some (sigint_handler p)
          | Some _ => None
          end
      | StopReturns k err =>
          match stop_pending p with
          | Some waiting =>
              if decide (k ∈ waiting) then Some (stop_returns p waiting k err)
              else None
          | None => None
          end
      end
  end.

(** A run of the event loop over a list of events, with everything the
    process did. *)
Fixpoint exec (p : Process) (es : list Event) : option (Process * list Action) :=
  match es with
  | [] => Some (p, [])
  | e :: es' =>
      match step p e with
      | Some (p1, acts1) =>
          match exec p1 es' with
          | Some (p2, acts2) => Some (p2, acts1 ++ acts2)
          | None => None
          end
      | None => None
      end
  end.

(** [run(dirname)] after the files are read: submit, index, and start the
    timer.  [INDEX] is still [undefined]. *)
Definition run (files : list (File * StartOutcome)) : Process :=
  let tasks := executeQueries files in
  match indexTasks tasks [] with
  | (Normal idx, st) => mkProcess st idx None None None None
  | (Throw e, st) => mkProcess st None None None None (Some (Exited 0))
  end.


(** What one cycle does to the dictionary once the batched call has
    succeeded: the callback of the call, then [consolidateJobs] with the
    object the promise resolved with. *)
Definition apply_results (tasks : JsRef) (results : BatchResults) : JS JsRef :=
  let! settled := monitor_callback tasks (BatchOk results) in
  match settled with
  | Resolved jobs => consolidateJobs tasks jobs
  | Rejected e => throw e
  end.
(** * Definitions for the statements and proofs *)

(** Changing the object in a slot, where the slot holds one: what the
    property writes [d[k].f = x] do. *)
Fixpoint dict_alter (f : Task -> Task) (k : string) (d : Dict) : Dict :=
  match d with
  | [] => []
  | (k', v) :: d' =>
      if decide (k' = k) then (k', f <$> v) :: d' else (k', v) :: dict_alter f k d'
  end.


(** The task objects a dictionary holds, in the order of its keys. *)
Definition dict_tasks (d : Dict) : list Task := omap snd d.

(** The identifiers of the queued and running tasks of a dictionary. *)
Definition running_ids (d : Dict) : list (option string) :=
  id <$> filter (fun t => is_running (status t)) (dict_tasks d).

(** Every task of the dictionary is in a terminal state. *)
Definition all_terminal (d : Dict) : Prop :=
  Forall (fun t => is_terminal (status t)) (dict_tasks d).

(** The dictionary the variable [jobIndex] points to. *)
Definition registry (p : Process) : option Dict :=
  match jobIndex p with
  | Some a => store p !! a
  | None => None
  end.

(** ** Property writes *)

(** The properties a write sets: the status, the error message, and the
    four statistics, which are only ever written together. *)
Record Patch := mkPatch {
  p_status : option Status;
  p_error : option (option string);
  p_timing : option (option DateTime * option DateTime * option Z * option Z)
}.

Definition apply_patch (p : Patch) (t : Task) : Task :=
  mkTask (name t) (query t) (id t)
    (default (status t) (p_status p))
    (default (error t) (p_error p))
    (match p_timing p with Some (a, _, _, _) => a | None => starttime t end)
    (match p_timing p with Some (_, b, _, _) => b | None => endtime t end)
    (match p_timing p with Some (_, _, c, _) => c | None => runtime t end)
    (match p_timing p with Some (_, _, _, e) => e | None => scanned t end).

Definition or_else {A} (later earlier : option A) : option A :=
  match later with Some _ => later | None => earlier end.

(** First [p], then [q]. *)
Definition patch_then (p q : Patch) : Patch :=
  mkPatch (or_else (p_status q) (p_status p))
          (or_else (p_error q) (p_error p))
          (or_else (p_timing q) (p_timing p)).

Definition no_patch : Patch := mkPatch None None None.

(** What [monitor] writes for an item of the response. *)
Definition item_patch (item : QueryExecution) : Patch :=
  mkPatch (Some (State item)) None
    (if has_statistics (State item)
     then Some (SubmissionDateTime item, CompletionDateTime item,
                EngineExecutionTimeInMillis item, DataScannedInBytes item)
     else None).

(** What [consolidateJobs] writes for an unprocessed identifier. *)
Definition failed_patch (u : UnprocessedQueryExecutionId) : Patch :=
  mkPatch (Some FAILED) (Some (Some (ErrorMessage u))) None.

Definition Write : Type := string * Patch.

(** The writes of a cycle, in the order in which they are made. *)
Definition writes_of (results : BatchResults) : list Write :=
  ((fun item => (QueryExecutionId item, item_patch item)) <$> QueryExecutions results)
  ++ ((fun u => (UnprocessedId u, failed_patch u)) <$> UnprocessedQueryExecutionIds results).

(** All writes of a list, made on a dictionary. *)
Definition alter_all (ws : list Write) (d : Dict) : Dict :=
  foldl (fun d w => dict_alter (apply_patch w.2) w.1 d) d ws.

(** The writes that are made before the first one that finds no object
    under its key. *)
Fixpoint applied (ws : list Write) (d : Dict) : list Write :=
  match ws with
  | [] => []
  | w :: ws' =>
      match dict_get d w.1 with
      | Some _ => w :: applied ws' d
      | None => []
      end
  end.

Definition all_defined (ws : list Write) (d : Dict) : bool :=
  forallb (fun w => bool_decide (is_Some (dict_get d w.1))) ws.

(** What the writes to the key [k] amount to. *)
Fixpoint patch_for (k : string) (ws : list Write) : Patch :=
  match ws with
  | [] => no_patch
  | w :: ws' =>
      if decide (w.1 = k) then patch_then w.2 (patch_for k ws') else patch_for k ws'
  end.

(** The identifiers a response mentions. *)
Definition mentioned (results : BatchResults) : list string :=
  (QueryExecutionId <$> QueryExecutions results)
  ++ (UnprocessedId <$> UnprocessedQueryExecutionIds results).

(** ** Well-formed states *)

(** A slot of the dictionary holds a task object, stored under the key its
    identifier gives. *)
Definition slot_ok (kv : string * option Task) : Prop :=
  match kv.2 with
  | Some t => ToPropertyKey (id t) = kv.1
  | None => False
  end.

#[global] Instance slot_ok_dec kv : Decision (slot_ok kv).
Proof. unfold slot_ok. destruct (kv.2); apply _. Defined.

(** The dictionaries the program builds: the keys of an object are
    distinct, and every slot is as [indexTasks] filled it. *)
Definition wf_dict (d : Dict) : Prop :=
  NoDup (dict_keys d) /\ Forall slot_ok d.

#[global] Instance wf_dict_dec d : Decision (wf_dict d).
Proof. unfold wf_dict. apply _. Defined.

(** The identifiers of a batched call in flight are those of queued or
    running tasks of the dictionary. *)
Definition pending_ok (d : Dict) (pending : option (list (option string))) : Prop :=
  match pending with
  | Some ids =>
      Forall (fun i =>
                match i with
                | Some s =>
                    match dict_get d s with
                    | Some t => is_running (status t)
                    | None => False
                    end
                | None => True
                end) ids
  | None => True
  end.

#[global] Instance pending_ok_dec d pending : Decision (pending_ok d pending).
Proof.
  unfold pending_ok. destruct pending; [|apply _].
  apply Forall_dec. intros [s|]; [|apply _]. destruct (dict_get d s); apply _.
Defined.

(** The states of the process: [jobIndex] points to a well-formed
    dictionary, and [INDEX] is [undefined] or points to the same one. *)
Definition wf_process (p : Process) : Prop :=
  match registry p with
  | Some d =>
      wf_dict d /\ (INDEX p = None \/ INDEX p = jobIndex p)
      /\ pending_ok d (poll_pending p)
  | None => False
  end.

#[global] Instance wf_process_dec p : Decision (wf_process p).
Proof. unfold wf_process. destruct (registry p); apply _. Defined.

(** A response of the service answers the call it belongs to: it mentions
    only identifiers the call asked about. *)
Definition answers (ids : list (option string)) (results : BatchResults) : Prop :=
  Forall (fun s => Some s ∈ ids) (mentioned results).

#[global] Instance answers_dec ids results : Decision (answers ids results).
Proof. unfold answers. apply _. Defined.

(** The same for the events of a run: every successful return of a batched
    call answers the call in flight. *)
Definition answers_call (p : Process) (e : Event) : Prop :=
  match e, poll_pending p with
  | BatchReturns (BatchOk results), Some ids => answers ids results
  | _, _ => True
  end.

Fixpoint answers_calls (p : Process) (es : list Event) : Prop :=
  match es with
  | [] => True
  | e :: es' =>
      answers_call p e /\
      match step p e with
      | Some (p', _) => answers_calls p' es'
      | None => True
      end
  end.

(** The events of a run in which a polling cycle starts after the
    interrupt. *)
Definition polls_after_interrupt (es : list Event) : Prop :=
  exists es1 es2, es = es1 ++ SIGINT :: es2 /\ Tick ∈ es2.

(** The dictionary [indexTasks] builds from an array of tasks. *)
Definition index_dict (tasks : list Task) : Dict :=
  foldl (fun d task => dict_set d (ToPropertyKey (id task)) (Some task)) [] tasks.

(** The process has handled the interrupt and has exited, or still waits
    for the callback of a stop request. *)
Definition stopping (p : Process) : Prop :=
  exited p <> None \/ exists waiting, stop_pending p = Some waiting /\ waiting <> [].

(** ** Reading a JSON text *)

Definition is_digit (c : ascii) : bool :=
  ((48 <=? nat_of_ascii c) && (nat_of_ascii c <=? 57))%nat.

Definition hex_value (c : ascii) : option nat :=
  let n := nat_of_ascii c in
  if ((48 <=? n) && (n <=? 57))%nat then Some (n - 48)%nat
  else if ((97 <=? n) && (n <=? 102))%nat then Some (n - 87)%nat
  else if ((65 <=? n) && (n <=? 70))%nat then Some (n - 55)%nat
  else None.

(** The character an escape letter stands for. *)
Definition unescape (e : ascii) : option ascii :=
  if Ascii.eqb e "034" then Some "034"%char
  else if Ascii.eqb e "\" then Some "\"%char
  else if Ascii.eqb e "/" then Some "/"%char
  else if Ascii.eqb e "b" then Some "008"%char
  else if Ascii.eqb e "t" then Some "009"%char
  else if Ascii.eqb e "n" then Some "010"%char
  else if Ascii.eqb e "f" then Some "012"%char
  else if Ascii.eqb e "r" then Some "013"%char
  else None.

Definition cons_char (c : ascii) (r : option (string * string))
    : option (string * string) :=
  match r with
  | Some (s, rest) => Some (String c s, rest)
  | None => None
  end.

(** The characters of a string up to its closing quote, and the text
    behind the quote. *)
Fixpoint unquote_chars (s : string) : option (string * string) :=
  match s with
  | EmptyString => None
  | String c s' =>
      if Ascii.eqb c "034" then Some (EmptyString, s')
      else if Ascii.eqb c "\" then
        match s' with
        | String e s'' =>
            if Ascii.eqb e "u" then
              match s'' with
              | String h1 (String h2 (String h3 (String h4 s3))) =>
                  match hex_value h1, hex_value h2, hex_value h3, hex_value h4 with
                  | Some a, Some b, Some c', Some d =>
                      let v := (((a * 16 + b) * 16 + c') * 16 + d)%nat in
                      if (v <? 128)%nat
                      then cons_char (ascii_of_nat v) (unquote_chars s3)
                      else None
                  | _, _, _, _ => None
                  end
              | _ => None
              end
            else
              match unescape e with
              | Some c' => cons_char c' (unquote_chars s'')
              | None => None
              end
        | EmptyString => None
        end
      else if (nat_of_ascii c <? 32)%nat then None
      else cons_char c (unquote_chars s')
  end.

Fixpoint span_digits (s : string) : string * string :=
  match s with
  | EmptyString => (EmptyString, EmptyString)
  | String c s' =>
      if is_digit c
      then let '(ds, rest) := span_digits s' in (String c ds, rest)
      else (EmptyString, s)
  end.

Definition parse_natural (s : string) : option (N * string) :=
  let '(ds, rest) := span_digits s in
  match ds with
  | EmptyString => None
  | _ =>
      match NilEmpty.uint_of_string ds with
      | Some d => Some (N.of_uint d, rest)
      | None => None
      end
  end.

Definition parse_number (s : string) : option (json * string) :=
  match s with
  | EmptyString => None
  | String c s' =>
      if Ascii.eqb c "-"
      then match parse_natural s' with
           | Some (n, rest) => Some (JNumber (- Z.of_N n), rest)
           | None => None
           end
      else match parse_natural s with
           | Some (n, rest) => Some (JNumber (Z.of_N n), rest)
           | None => None
           end
  end.

(** The text behind the character [c], where the text starts with it. *)
Definition expect (c : ascii) (s : string) : option string :=
  match s with
  | String c' rest => if Ascii.eqb c' c then Some rest else None
  | EmptyString => None
  end.

Fixpoint parse_value (fuel : nat) (s : string) : option (json * string) :=
  match fuel with
  | O => None
  | S fuel' =>
      match s with
      | EmptyString => None
      | String c s' =>
          if Ascii.eqb c "n" then
            r1 ← expect "u" s'; r2 ← expect "l" r1; rest ← expect "l" r2;
            Some (JNull, rest)
          else if Ascii.eqb c "034" then
            '(str, rest) ← unquote_chars s'; Some (JString str, rest)
          else if Ascii.eqb c "[" then
            match expect "]" s' with
            | Some rest => Some (JArray [], rest)
            | None => '(l, rest) ← parse_elements fuel' s'; Some (JArray l, rest)
            end
          else if Ascii.eqb c "{" then
            match expect "}" s' with
            | Some rest => Some (JObject [], rest)
            | None => '(l, rest) ← parse_members fuel' s'; Some (JObject l, rest)
            end
          else parse_number s
      end
  end
with parse_elements (fuel : nat) (s : string) : option (list json * string) :=
  match fuel with
  | O => None
  | S fuel' =>
      '(j, rest) ← parse_value fuel' s;
      match rest with
      | EmptyString => None
      | String c rest' =>
          if Ascii.eqb c "," then
            '(l, rest'') ← parse_elements fuel' rest'; Some (j :: l, rest'')
          else if Ascii.eqb c "]" then Some ([j], rest')
          else None
      end
  end
with parse_members (fuel : nat) (s : string)
    : option (list (string * json) * string) :=
  match fuel with
  | O => None
  | S fuel' =>
      body ← expect "034" s;
      '(k, rest) ← unquote_chars body;
      rest ← expect ":" rest;
      '(j, rest) ← parse_value fuel' rest;
      match rest with
      | EmptyString => None
      | String c rest' =>
          if Ascii.eqb c "," then
            '(l, rest'') ← parse_members fuel' rest'; Some ((k, j) :: l, rest'')
          else if Ascii.eqb c "}" then Some ([(k, j)], rest')
          else None
      end
  end.

(** [JSON.parse(s)] for a text that is one value. *)
Definition JSON_parse (s : string) : option json :=
  match parse_value (String.length s) s with
  | Some (j, EmptyString) => Some j
  | _ => None
  end.


Fixpoint json_size (j : json) : nat :=
  match j with
  | JArray l => S (list_sum ((fun e => S (json_size e)) <$> l))
  | JObject l => S (list_sum ((fun kv => S (json_size kv.2)) <$> l))
  | _ => 1
  end.

(** The text does not go on with a digit. *)
Definition no_digit (rest : string) : Prop :=
  match rest with
  | String c _ => is_digit c = false
  | EmptyString => True
  end.

(** The text of [j], in front of any text that does not go on with a
    digit, reads back as [j]. *)
Definition reads_back (j : json) : Prop :=
  forall rest fuel, (json_size j <= fuel)%nat -> no_digit rest ->
    parse_value fuel (json_text j rest) = Some (j, rest).

(** ** Reading the results document back *)

(** [o[k]] on a parsed object: [None] when the object has no property
    [k]. *)
Fixpoint json_lookup (o : list (string * json)) (k : string) : option json :=
  match o with
  | [] => None
  | (k', j) :: o' => if decide (k' = k) then Some j else json_lookup o' k
  end.

Definition as_string (j : json) : option string :=
  match j with JString s => Some s | _ => None end.

Definition as_number (j : json) : option Z :=
  match j with JNumber n => Some n | _ => None end.

Definition Status_of_literal (s : string) : option Status :=
  if decide (s = "QUEUED") then Some QUEUED
  else if decide (s = "RUNNING") then Some RUNNING
  else if decide (s = "SUCCEEDED") then Some SUCCEEDED
  else if decide (s = "FAILED") then Some FAILED
  else if decide (s = "CANCELLED") then Some CANCELLED
  else None.

(** A property every task has. *)
Definition required {A} (dec : json -> option A) (o : option json) : option A :=
  o ≫= dec.

(** A property a task may lack: absent in the object it reads as absent;
    present, it must hold a value of its kind, so that [null] is not
    accepted for it. *)
Definition optional {A} (dec : json -> option A) (o : option json)
    : option (option A) :=
  match o with
  | None => Some None
  | Some j => Some <$> dec j
  end.

(** The task a parsed object stands for. *)
Definition task_of_json (j : json) : option Task :=
  match j with
  | JObject o =>
      t_name ← required as_string (json_lookup o "name");
      t_query ← required as_string (json_lookup o "query");
      t_id ← optional as_string (json_lookup o "id");
      t_status ← required as_string (json_lookup o "status") ≫= Status_of_literal;
      t_error ← optional as_string (json_lookup o "error");
      t_starttime ← optional as_string (json_lookup o "starttime");
      t_endtime ← optional as_string (json_lookup o "endtime");
      t_runtime ← optional as_number (json_lookup o "runtime");
      t_scanned ← optional as_number (json_lookup o "scanned");
      Some (mkTask t_name t_query t_id t_status t_error
                   t_starttime t_endtime t_runtime t_scanned)
  | _ => None
  end.

(** The collection of tasks a parsed document stands for. *)
Definition tasks_of_json (doc : json) : option (list Task) :=
  match doc with
  | JArray l => mapM task_of_json l
  | _ => None
  end.

(** The properties of a serialized task. *)
Definition properties (j : json) : list (string * json) :=
  match j with JObject o => o | _ => [] end.

(** ** A run to try the statements on *)

(** Three files; the first submission fails, the other two succeed. *)
Definition ex_files : list (File * StartOutcome) :=
  [(mkFile "sql/a.sql" "select 1", StartError "access denied");
   (mkFile "sql/b.sql" "select 2", StartResults "q-2");
   (mkFile "sql/c.sql" "select 3", StartResults "q-3")].

(** The first response: one query has succeeded, the other is running. *)
Definition ex_results : BatchResults :=
  mkBatchResults
    [mkQueryExecution "q-2" SUCCEEDED (Some "2019-03-01T10:00:00.000Z")
       (Some "2019-03-01T10:00:02.000Z") (Some 1200) (Some 2048);
     mkQueryExecution "q-3" RUNNING (Some "2019-03-01T10:00:00.000Z")
       None (Some 300) (Some 0)]
    [].

(** A later response: the service could not process the running query. *)
Definition ex_unprocessed : BatchResults :=
  mkBatchResults [] [mkUnprocessed "q-3" "internal error"].

(** The dictionary after submission, and the process after the first
    cycle. *)
Definition ex_dict : Dict := index_dict (executeQueries ex_files).

Definition ex_polled : Process :=
  match exec (run ex_files) [Tick; BatchReturns (BatchOk ex_results)] with
  | Some (p, _) => p
  | None => run ex_files
  end.

Definition ex_polled_dict : Dict := alter_all (writes_of ex_results) ex_dict.

(** Two files whose submissions both fail. *)
Definition ex_failed_files : list (File * StartOutcome) :=
  [(mkFile "sql/a.sql" "select 1", StartError "access denied");
   (mkFile "sql/b.sql" "select 2", StartError "throttled")].

(** The example run continued: a second cycle whose response reports the
    running query as unprocessed, and a cycle whose call fails. *)
Definition ex_after_second_cycle : Process * list Action :=
  match exec ex_polled [Tick; BatchReturns (BatchOk ex_unprocessed)] with
  | Some r => r
  | None => (ex_polled, [])
  end.

Definition ex_after_error : Process * list Action :=
  match exec ex_polled [Tick; BatchReturns (BatchError "socket hang up")] with
  | Some r => r
  | None => (ex_polled, [])
  end.

(** The first batched call is in flight. *)
Definition ex_in_flight : Process * list Action :=
  match exec (run ex_files) [Tick] with
  | Some r => r
  | None => (run ex_files, [])
  end.

Definition ex_after_late_tick : Process * list Action :=
  match exec (run ex_files)
             ([Tick; BatchReturns (BatchOk ex_results)] ++ SIGINT :: [] ++ [Tick]) with
  | Some r => r
  | None => (run ex_files, [])
  end.

(** * Further definitions *)

(** ** The status screen and the input files *)

(** The decimal text of a natural number, as [String(n)] gives it for an
    integer. *)
Definition decimal (n : N) : string := NilEmpty.string_of_uint (N.to_uint n).

(** [millisToMinutesAndSeconds(millis)] for a whole number of
    milliseconds below 2^53, which a double holds exactly.  [Math.floor(millis / 60000)] is the quotient;
    [((millis % 60000) / 1000).toFixed(0)] is the remainder in seconds
    rounded to the nearest integer, a half upwards; [seconds < 10]
    compares the number the text stands for. *)
Definition millisToMinutesAndSeconds (millis : N) : string :=
  let minutes := (millis / 60000)%N in
  let seconds := ((millis mod 60000 + 500) / 1000)%N in
  decimal minutes ++ ":" ++ (if (seconds <? 10)%N then "0" else EmptyString)
    ++ decimal seconds.

(** What [fs.statSync(name).isDirectory()] and [fs.readdirSync(name)] tell
    about a name: a file, or a directory with its entries in the order in
    which they are read. *)
#[warnings="-register-all"]
Inductive Node :=
| FileNode
| DirNode (entries : list (string * Node)).

(** What [getAllFiles] returns for the name of a directory, and what the
    callback of its [reduce] adds for the name of a file.  [path_join] is
    [path.join]; the array [files] is the accumulator of [reduce]. *)
Fixpoint getAllFiles_node (path_join : string -> string -> string) (name : string)
    (node : Node) : list string :=
  match node with
  | FileNode => [name]
  | DirNode entries =>
      (fix reduce (files : list string) (entries : list (string * Node))
         : list string :=
         match entries with
         | [] => files
         | (file, n) :: entries' =>
             reduce (files ++ getAllFiles_node path_join (path_join name file) n)
                    entries'
         end) [] entries
  end.

(** [getAllFiles(dir)] for a directory with the given entries. *)
Definition getAllFiles (path_join : string -> string -> string) (dir : string)
    (entries : list (string * Node)) : list string :=
  getAllFiles_node path_join dir (DirNode entries).

(** The number of files in a tree of directories. *)
Fixpoint count_files (node : Node) : nat :=
  match node with
  | FileNode => 1
  | DirNode entries => list_sum ((fun e => count_files e.2) <$> entries)
  end.

(** ** Invariants of the dictionary *)

(** The key under which [indexTasks] stores a task. *)
Definition task_key (t : Task) : string := ToPropertyKey (id t).

(** A task without an identifier is one whose submission failed. *)
Definition failed_without_id (d : Dict) : Prop :=
  forall k t, dict_get d k = Some t -> id t = None -> status t = FAILED.

(** The values of the dictionary [r] under the keys of [d]: what the first
    loop of [consolidateJobs] leaves in [jobIndex]. *)
Definition dict_copy (r d : Dict) : Dict :=
  (fun kv => (kv.1, dict_get r kv.1)) <$> d.

(** No results file is among the actions. *)
Definition no_write (acts : list Action) : Prop :=
  forall data, writeFileSync data ∉ acts.

(** The process does not exit among the actions. *)
Definition no_exit (acts : list Action) : Prop :=
  forall code, process_exit code ∉ acts.

(** How a process that ended has ended: with an exit code, which is 0 or 1,
    after [process.exit] of that code as the last action and nowhere
    before; otherwise without [process.exit]. *)
Definition exit_outcome (p' : Process) (acts : list Action) : Prop :=
  match exited p' with
  | Some (Exited code) =>
      (code = 0 \/ code = 1) /\
      exists pre, acts = pre ++ [process_exit code] /\ no_exit pre
  | _ => no_exit acts
  end.

(** ** Further example data *)

(** The example run interrupted after its first cycle; the stop request
    returns an error. *)
Definition ex_interrupted : Process * list Action :=
  match exec ex_polled [SIGINT; StopReturns (Some "q-3") (Some "not found")] with
  | Some r => r
  | None => (ex_polled, [])
  end.

(** A response about a query the run has not submitted. *)
Definition ex_foreign_item : QueryExecution :=
  mkQueryExecution "q-9" SUCCEEDED (Some "2019-03-01T10:00:00.000Z")
    (Some "2019-03-01T10:00:01.000Z") (Some 900) (Some 1024).

Definition ex_foreign_unprocessed : UnprocessedQueryExecutionId :=
  mkUnprocessed "q-9" "not found".

(** A response with a terminal state for both submitted queries: one has
    succeeded, the other could not be processed. *)
Definition ex_final_results : BatchResults :=
  mkBatchResults
    [mkQueryExecution "q-2" SUCCEEDED (Some "2019-03-01T10:00:00.000Z")
       (Some "2019-03-01T10:00:02.000Z") (Some 1200) (Some 2048)]
    [mkUnprocessed "q-3" "internal error"].
(** * Properties *)

(** ** Dictionaries *)

Section DictFacts.
Implicit Types (d : Dict) (k : string) (v : option Task).

Lemma dict_get_set_eq d k v : dict_get (dict_set d k v) k = v.
Proof.
  induction d as [|[k' v'] d IH]; csimpl.
  - by rewrite decide_True.
  - destruct (decide (k' = k)) as [->|Hne]; csimpl.
    + by rewrite decide_True.
    + by rewrite decide_False.
Qed.

Lemma dict_get_set_ne d k k' v :
  k ≠ k' -> dict_get (dict_set d k v) k' = dict_get d k'.
Proof.
  intros Hne. induction d as [|[k0 v0] d IH]; csimpl.
  - by rewrite decide_False.
  - destruct (decide (k0 = k)) as [->|Hne0]; csimpl.
    + by rewrite !decide_False.
    + destruct (decide (k0 = k')); auto.
Qed.

Lemma dict_keys_set_in d k v :
  k ∈ dict_keys d -> dict_keys (dict_set d k v) = dict_keys d.
Proof.
  unfold dict_keys. induction d as [|[k' v'] d IH]; csimpl; intros Hin.
  - by apply elem_of_nil in Hin.
  - destruct (decide (k' = k)) as [->|Hne]; csimpl; [done|].
    apply elem_of_cons in Hin as [->|Hin]; [done|]. by rewrite IH.
Qed.

Lemma dict_keys_set_notin d k v :
  k ∉ dict_keys d -> dict_keys (dict_set d k v) = dict_keys d ++ [k].
Proof.
  unfold dict_keys. induction d as [|[k' v'] d IH]; csimpl; intros Hin; [done|].
  apply not_elem_of_cons in Hin as [Hne Hin].
  rewrite decide_False by done. csimpl. by rewrite IH.
Qed.

Lemma dict_get_is_Some_key d k : is_Some (dict_get d k) -> k ∈ dict_keys d.
Proof.
  unfold dict_keys. induction d as [|[k' v'] d IH]; csimpl; intros [t Ht]; [done|].
  destruct (decide (k' = k)) as [->|Hne]; [left|right; eauto].
Qed.

(** Reading a slot and writing the value back changes nothing. *)
Lemma dict_set_get d k : k ∈ dict_keys d -> dict_set d k (dict_get d k) = d.
Proof.
  unfold dict_keys. induction d as [|[k' v'] d IH]; csimpl; intros Hin.
  - by apply elem_of_nil in Hin.
  - destruct (decide (k' = k)) as [->|Hne]; [done|].
    apply elem_of_cons in Hin as [->|Hin]; [done|]. by rewrite IH.
Qed.

(** The slot the program finds under a key of the dictionary. *)
Lemma dict_get_elem_of d k v :
  NoDup (dict_keys d) -> (k, v) ∈ d -> dict_get d k = v.
Proof.
  unfold dict_keys. induction d as [|[k' v'] d IH]; csimpl; intros Hnd Hin.
  - by apply elem_of_nil in Hin.
  - apply NoDup_cons in Hnd as [Hk' Hnd].
    apply elem_of_cons in Hin as [[= -> ->]|Hin].
    + by rewrite decide_True.
    + rewrite decide_False; [auto|]. intros ->. apply Hk'.
      apply list_elem_of_fmap. by exists (k, v).
Qed.

Lemma dict_get_Some_elem_of d k t : dict_get d k = Some t -> (k, Some t) ∈ d.
Proof.
  induction d as [|[k' v'] d IH]; csimpl; [done|].
  destruct (decide (k' = k)) as [->|Hne]; intros H.
  - subst. left.
  - right. auto.
Qed.

(** Two dictionaries with the same keys, in the same order, and the same
    value under every key are the same dictionary. *)
Lemma dict_ext d d' :
  NoDup (dict_keys d) -> dict_keys d = dict_keys d' ->
  (forall k, k ∈ dict_keys d -> dict_get d k = dict_get d' k) -> d = d'.
Proof.
  unfold dict_keys. revert d'.
  induction d as [|[k v] d IH]; intros [|[k' v'] d']; csimpl; try done.
  intros Hnd [= <- Hks] Hget. apply NoDup_cons in Hnd as [Hk Hnd].
  pose proof (Hget k ltac:(left)) as Hv. csimpl in Hv.
  rewrite !decide_True in Hv by done. subst v'. f_equal.
  apply IH; [done..|]. intros k0 Hk0. specialize (Hget k0 ltac:(by right)).
  csimpl in Hget. rewrite !decide_False in Hget; [done|intros ->; done..].
Qed.
End DictFacts.

Section DictAlter.
Implicit Types (d : Dict) (k : string) (f : Task -> Task).

Lemma dict_set_alter d k f t :
  dict_get d k = Some t -> dict_set d k (Some (f t)) = dict_alter f k d.
Proof.
  induction d as [|[k' v'] d IH]; csimpl; [done|].
  destruct (decide (k' = k)) as [->|Hne]; intros H.
  - by subst.
  - by rewrite IH.
Qed.

Lemma dict_keys_alter d k f : dict_keys (dict_alter f k d) = dict_keys d.
Proof.
  unfold dict_keys. induction d as [|[k' v'] d IH]; csimpl; [done|].
  destruct (decide (k' = k)); csimpl; by rewrite ?IH.
Qed.

Lemma dict_get_alter d k k' f :
  dict_get (dict_alter f k d) k'
  = if decide (k = k') then f <$> dict_get d k' else dict_get d k'.
Proof.
  induction d as [|[k0 v0] d IH]; csimpl.
  - by destruct (decide (k = k')).
  - destruct (decide (k0 = k)) as [->|Hne]; csimpl.
    + destruct (decide (k = k')); [done|]. done.
    + destruct (decide (k0 = k')) as [->|Hne'].
      * by rewrite decide_False.
      * done.
Qed.

Lemma dict_alter_id d k f : (forall t, f t = t) -> dict_alter f k d = d.
Proof.
  intros Hf. induction d as [|[k' v'] d IH]; csimpl; [done|].
  destruct (decide (k' = k)).
  - destruct v'; csimpl; by rewrite ?Hf.
  - by rewrite IH.
Qed.
End DictAlter.

Section DictAlterMore.
Implicit Types (d : Dict) (k : string) (f g : Task -> Task).

Lemma dict_alter_compose d k f g :
  dict_alter f k (dict_alter g k d) = dict_alter (fun t => f (g t)) k d.
Proof.
  induction d as [|[k' v'] d IH]; csimpl; [done|].
  destruct (decide (k' = k)) as [->|Hne]; csimpl.
  - rewrite decide_True by done. by destruct v'.
  - rewrite decide_False by done. by rewrite IH.
Qed.

Lemma dict_alter_ext d k f g :
  (forall t, f t = g t) -> dict_alter f k d = dict_alter g k d.
Proof.
  intros Hfg. induction d as [|[k' v'] d IH]; csimpl; [done|].
  destruct (decide (k' = k)); [destruct v'; csimpl; by rewrite ?Hfg|by rewrite IH].
Qed.

Lemma dict_alter_preserves_slot_ok d k f :
  (forall t, id (f t) = id t) -> Forall slot_ok d -> Forall slot_ok (dict_alter f k d).
Proof.
  intros Hid. induction 1 as [|[k' v'] d Hkv Hd IH]; csimpl; [constructor|].
  destruct (decide (k' = k)) as [->|Hne]; constructor; auto.
  unfold slot_ok in *. destruct v'; csimpl in *; [by rewrite Hid|done].
Qed.

Lemma dict_tasks_defined d :
  Forall slot_ok d -> dict_values d = Some <$> dict_tasks d.
Proof.
  unfold dict_values, dict_tasks.
  induction 1 as [|[k [t|]] d Hkv Hd IH]; csimpl; [done| |done].
  by rewrite IH.
Qed.
End DictAlterMore.

(** ** Patches *)

Section PatchFacts.
Implicit Types (p q : Patch) (t : Task).

Lemma apply_no_patch t : apply_patch no_patch t = t.
Proof. by destruct t. Qed.

Lemma apply_patch_then p q t :
  apply_patch (patch_then p q) t = apply_patch q (apply_patch p t).
Proof.
  destruct p as [ps pe pt], q as [qs qe qt], t.
  unfold apply_patch, patch_then, or_else; simpl.
  destruct qs, qe, qt as [[[[? ?] ?] ?]|]; simpl; try done.
Qed.

(** A patch overwrites: making it twice is making it once. *)
Lemma apply_patch_idem p t :
  apply_patch p (apply_patch p t) = apply_patch p t.
Proof.
  destruct p as [ps pe pt], t. unfold apply_patch; simpl.
  destruct ps, pe, pt as [[[[? ?] ?] ?]|]; simpl; done.
Qed.

Lemma apply_patch_id p t : id (apply_patch p t) = id t.
Proof. done. Qed.

Lemma patch_then_no_patch_r p : patch_then p no_patch = p.
Proof. by destruct p. Qed.

Lemma patch_then_no_patch_l p : patch_then no_patch p = p.
Proof. destruct p as [[] [] []]; done. Qed.

Lemma patch_then_assoc p q r :
  patch_then (patch_then p q) r = patch_then p (patch_then q r).
Proof.
  destruct p as [ps pe pt], q as [qs qe qt], r as [rs re rt].
  unfold patch_then, or_else; simpl. by destruct rs, re, rt.
Qed.

Lemma patch_for_app k (ws1 ws2 : list Write) :
  patch_for k (ws1 ++ ws2) = patch_then (patch_for k ws1) (patch_for k ws2).
Proof.
  induction ws1 as [|w ws1 IH]; simpl.
  - by rewrite patch_then_no_patch_l.
  - destruct (decide (w.1 = k)); [|done]. by rewrite IH, patch_then_assoc.
Qed.

Lemma patch_for_not_mentioned k (ws : list Write) :
  k ∉ ws.*1 -> patch_for k ws = no_patch.
Proof.
  induction ws as [|w ws IH]; csimpl; [done|].
  intros [Hne Hk]%not_elem_of_cons. rewrite decide_False by done. auto.
Qed.
End PatchFacts.

(** ** Lists of writes *)

Section Writes.
Implicit Types (d : Dict) (k : string) (ws vs : list Write).

Lemma alter_all_cons w ws d :
  alter_all (w :: ws) d = alter_all ws (dict_alter (apply_patch w.2) w.1 d).
Proof. done. Qed.

Lemma alter_all_keys ws d : dict_keys (alter_all ws d) = dict_keys d.
Proof.
  revert d. induction ws as [|w ws IH]; intros d; [done|].
  by rewrite alter_all_cons, IH, dict_keys_alter.
Qed.

Lemma alter_all_get ws d k :
  dict_get (alter_all ws d) k = apply_patch (patch_for k ws) <$> dict_get d k.
Proof.
  revert d. induction ws as [|w ws IH]; intros d.
  - simpl. destruct (dict_get d k); simpl; by rewrite ?apply_no_patch.
  - rewrite alter_all_cons, IH, dict_get_alter. simpl.
    destruct (decide (w.1 = k)); [|done].
    destruct (dict_get d k); simpl; by rewrite ?apply_patch_then.
Qed.

Lemma alter_all_app ws vs d :
  alter_all (ws ++ vs) d = alter_all vs (alter_all ws d).
Proof. unfold alter_all. apply foldl_app. Qed.

Lemma alter_all_slot_ok ws d : Forall slot_ok d -> Forall slot_ok (alter_all ws d).
Proof.
  revert d. induction ws as [|w ws IH]; intros d Hd; [done|].
  rewrite alter_all_cons. apply IH. by apply dict_alter_preserves_slot_ok.
Qed.

Lemma alter_all_wf ws d : wf_dict d -> wf_dict (alter_all ws d).
Proof.
  intros [Hnd Hok]. split; [by rewrite alter_all_keys|by apply alter_all_slot_ok].
Qed.

Lemma dict_get_alter_is_Some d k k' f :
  is_Some (dict_get (dict_alter f k d) k') <-> is_Some (dict_get d k').
Proof.
  rewrite dict_get_alter. destruct (decide (k = k')); [|done].
  by rewrite fmap_is_Some.
Qed.

Lemma applied_alter ws d k f : applied ws (dict_alter f k d) = applied ws d.
Proof.
  induction ws as [|w ws IH]; simpl; [done|].
  pose proof (dict_get_alter_is_Some d k w.1 f) as Hs. rewrite IH.
  destruct (dict_get (dict_alter f k d) w.1) as [t|] eqn:E1,
           (dict_get d w.1) as [t'|] eqn:E2; try done.
  - destruct Hs as [[? [=]] _]. eauto.
  - destruct Hs as [_ [? [=]]]. eauto.
Qed.

Lemma applied_alter_all ws vs d : applied ws (alter_all vs d) = applied ws d.
Proof.
  revert d. induction vs as [|v vs IH]; intros d; [done|].
  by rewrite alter_all_cons, IH, applied_alter.
Qed.

Lemma all_defined_alter_all ws vs d :
  all_defined ws (alter_all vs d) = all_defined ws d.
Proof.
  unfold all_defined. induction ws as [|w ws IH]; simpl; [done|].
  rewrite IH. f_equal. apply bool_decide_ext.
  rewrite alter_all_get. by rewrite fmap_is_Some.
Qed.

Lemma applied_all_defined ws d : all_defined ws d = true -> applied ws d = ws.
Proof.
  unfold all_defined. induction ws as [|w ws IH]; simpl; [done|].
  intros [Hw Hws]%andb_true_iff. apply bool_decide_eq_true in Hw as [t Ht].
  rewrite Ht. by rewrite IH.
Qed.

Lemma all_defined_app ws vs d :
  all_defined (ws ++ vs) d = all_defined ws d && all_defined vs d.
Proof. unfold all_defined. apply forallb_app. Qed.

Lemma applied_app ws vs d :
  applied (ws ++ vs) d
  = if all_defined ws d then ws ++ applied vs d else applied ws d.
Proof.
  unfold all_defined. induction ws as [|w ws IH]; simpl; [done|].
  destruct (dict_get d w.1) as [t|] eqn:E.
  - rewrite bool_decide_eq_true_2 by eauto. simpl. rewrite IH.
    by case_match.
  - rewrite bool_decide_eq_false_2; [done|]. by intros [? [=]].
Qed.

(** Making the writes of a list a second time changes nothing. *)
Lemma alter_all_idem ws d :
  NoDup (dict_keys d) -> alter_all ws (alter_all ws d) = alter_all ws d.
Proof.
  intros Hnd. symmetry. apply dict_ext.
  - by rewrite alter_all_keys.
  - by rewrite !alter_all_keys.
  - intros k _. rewrite !alter_all_get.
    destruct (dict_get d k); simpl; by rewrite ?apply_patch_idem.
Qed.
End Writes.

(** ** The operations on a dictionary in the store *)

Section StoreFacts.
Implicit Types (st : Store) (a : ref) (d : Dict) (k : string).

Lemma lookup_insert_store st a d d' :
  st !! a = Some d -> <[a := d']> st !! a = Some d'.
Proof. intros H. apply list_lookup_insert_eq. by eapply lookup_lt_Some. Qed.

Lemma deref_at st a d : st !! a = Some d -> deref (Some a) st = (Normal d, st).
Proof. intros H. unfold deref. by rewrite H. Qed.

Lemma Object_keys_at st a d :
  st !! a = Some d -> Object_keys (Some a) st = (Normal (dict_keys d), st).
Proof. intros H. unfold Object_keys, bind. by rewrite (deref_at _ _ _ H). Qed.

Lemma Object_values_at st a d :
  st !! a = Some d -> Object_values (Some a) st = (Normal (dict_values d), st).
Proof. intros H. unfold Object_values, bind. by rewrite (deref_at _ _ _ H). Qed.

Lemma get_at st a d k :
  st !! a = Some d -> get (Some a) k st = (Normal (dict_get d k), st).
Proof. intros H. unfold get, bind. by rewrite (deref_at _ _ _ H). Qed.

Lemma put_at st a d k v :
  st !! a = Some d -> put (Some a) k v st = (Normal tt, <[a := dict_set d k v]> st).
Proof. intros H. unfold put. by rewrite H. Qed.

(** [t = r[k]; t.f = x; r[k] = t], and [r[k].f = x] *)
Lemma update_slot st a d k (f : Task -> Task) :
  st !! a = Some d ->
  (let! v := get (Some a) k in
   let! t := to_object v in
   put (Some a) k (Some (f t))) st
  = match dict_get d k with
    | Some _ => (Normal tt, <[a := dict_alter f k d]> st)
    | None => (Throw TypeError, st)
    end.
Proof.
  intros H. unfold bind at 1. rewrite (get_at _ _ _ _ H).
  destruct (dict_get d k) as [t|] eqn:E; [|done].
  unfold bind, to_object, ret. rewrite (put_at _ _ _ _ _ H).
  by rewrite (dict_set_alter _ _ _ _ E).
Qed.

Lemma monitor_item_at st a d item :
  st !! a = Some d ->
  monitor_item (Some a) item st
  = match dict_get d (QueryExecutionId item) with
    | Some _ =>
        (Normal tt,
         <[a := dict_alter (apply_patch (item_patch item)) (QueryExecutionId item) d]> st)
    | None => (Throw TypeError, st)
    end.
Proof.
  intros H. unfold monitor_item.
  rewrite (update_slot _ _ _ _
    (fun t =>
       let t := set_status (State item) t in
       if has_statistics (status t)
       then set_timing (SubmissionDateTime item) (CompletionDateTime item)
              (EngineExecutionTimeInMillis item) (DataScannedInBytes item) t
       else t) H).
  destruct (dict_get d (QueryExecutionId item)) as [_t|]; [|done].
  do 2 f_equal. apply dict_alter_ext. intros t.
  unfold apply_patch, item_patch; simpl. by destruct (has_statistics (State item)).
Qed.

Lemma consolidate_failed_at st a d u :
  st !! a = Some d ->
  consolidate_failed (Some a) u st
  = match dict_get d (UnprocessedId u) with
    | Some _ =>
        (Normal tt,
         <[a := dict_alter (apply_patch (failed_patch u)) (UnprocessedId u) d]> st)
    | None => (Throw TypeError, st)
    end.
Proof.
  intros H. unfold consolidate_failed.
  unfold bind at 1. rewrite (get_at _ _ _ _ H).
  destruct (dict_get d (UnprocessedId u)) as [t|] eqn:E; [|done].
  unfold bind at 1. unfold to_object at 1, ret at 1.
  unfold bind at 1. rewrite (put_at _ _ _ _ _ H).
  rewrite (dict_set_alter _ _ (set_status FAILED) _ E).
  pose proof (lookup_insert_store st a d
                (dict_alter (set_status FAILED) (UnprocessedId u) d) H) as H1.
  rewrite (update_slot _ _ _ _ (set_error (Some (ErrorMessage u))) H1).
  rewrite dict_get_alter, decide_True, E by done. simpl.
  rewrite list_insert_insert_eq, dict_alter_compose.
  do 2 f_equal.
Qed.

(** The writes of a loop whose body writes one slot. *)
Lemma forEach_writes {A} (body : A -> JS unit) (w : A -> Write) a :
  (forall st d x, st !! a = Some d ->
     body x st = match dict_get d (w x).1 with
                 | Some _ =>
                     (Normal tt, <[a := dict_alter (apply_patch (w x).2) (w x).1 d]> st)
                 | None => (Throw TypeError, st)
                 end) ->
  forall (l : list A) st d, st !! a = Some d ->
    forEach l body st
    = (if all_defined (w <$> l) d then Normal tt else Throw TypeError,
       <[a := alter_all (applied (w <$> l) d) d]> st).
Proof.
  intros Hbody l. induction l as [|x l IH]; intros st d H; csimpl.
  - unfold ret. by rewrite list_insert_id.
  - unfold bind. rewrite (Hbody _ _ _ H).
    destruct (dict_get d (w x).1) as [t|] eqn:E.
    + rewrite bool_decide_eq_true_2 by eauto. simpl.
      rewrite (IH _ _ (lookup_insert_store _ _ _ _ H)).
      rewrite list_insert_insert_eq, applied_alter.
      rewrite <- (all_defined_alter_all _ [w x] d). done.
    + rewrite bool_decide_eq_false_2 by (by intros [? [=]]). simpl.
      by rewrite list_insert_id.
Qed.

(** The first loop of [consolidateJobs] when [jobs.runs] is the
    dictionary itself: every slot is assigned the value it has. *)
Lemma consolidate_copy_same st a d (ks : list string) :
  st !! a = Some d -> ks ⊆ dict_keys d ->
  forEach ks (fun k => let! v := get (Some a) k in put (Some a) k v) st
  = (Normal tt, st).
Proof.
  intros H. induction ks as [|k ks IH]; intros Hks; simpl; [done|].
  unfold bind at 1. unfold bind at 1. rewrite (get_at _ _ _ _ H).
  rewrite (put_at _ _ _ _ _ H).
  rewrite dict_set_get by (apply Hks; left). rewrite list_insert_id by done.
  apply IH. intros k' Hk'. apply Hks. by right.
Qed.
End StoreFacts.

(** ** A cycle as a list of writes *)

Section ApplyResults.
Implicit Types (st : Store) (a : ref) (d : Dict) (results : BatchResults).

Lemma forEach_monitor_item_at st a d items :
  st !! a = Some d ->
  let ws := (fun item => (QueryExecutionId item, item_patch item)) <$> items in
  forEach items (monitor_item (Some a)) st
  = (if all_defined ws d then Normal tt else Throw TypeError,
     <[a := alter_all (applied ws d) d]> st).
Proof.
  intros H ws. apply forEach_writes; [|done].
  intros st' d' item H'. by rewrite (monitor_item_at _ _ _ _ H').
Qed.

Lemma forEach_consolidate_failed_at st a d us :
  st !! a = Some d ->
  let ws := (fun u => (UnprocessedId u, failed_patch u)) <$> us in
  forEach us (consolidate_failed (Some a)) st
  = (if all_defined ws d then Normal tt else Throw TypeError,
     <[a := alter_all (applied ws d) d]> st).
Proof.
  intros H ws. apply forEach_writes; [|done].
  intros st' d' u H'. by rewrite (consolidate_failed_at _ _ _ _ H').
Qed.

Lemma consolidateJobs_at st a d us :
  st !! a = Some d ->
  let ws := (fun u => (UnprocessedId u, failed_patch u)) <$> us in
  consolidateJobs (Some a) (mkJobs (Some a) us) st
  = (if all_defined ws d then Normal (Some a) else Throw TypeError,
     <[a := alter_all (applied ws d) d]> st).
Proof.
  intros H ws. unfold consolidateJobs; simpl.
  unfold bind at 1. rewrite (Object_keys_at _ _ _ H).
  unfold bind at 1. rewrite (consolidate_copy_same _ _ _ _ H) by done.
  unfold bind at 1. rewrite (forEach_consolidate_failed_at _ _ _ _ H).
  fold ws. by destruct (all_defined ws d).
Qed.

(** What a cycle does to the store: the writes of the response, up to the
    first one that finds no object under its key. *)
Lemma apply_results_at st a d results :
  st !! a = Some d ->
  apply_results (Some a) results st
  = (if all_defined (writes_of results) d then Normal (Some a) else Throw TypeError,
     <[a := alter_all (applied (writes_of results) d) d]> st).
Proof.
  intros H. unfold apply_results, monitor_callback, writes_of.
  set (ws1 := _ <$> QueryExecutions results).
  set (ws2 := _ <$> UnprocessedQueryExecutionIds results).
  unfold bind at 1. unfold bind at 1.
  rewrite (forEach_monitor_item_at _ _ _ _ H). fold ws1.
  rewrite all_defined_app, applied_app.
  destruct (all_defined ws1 d) eqn:E1; simpl; [|done].
  rewrite (applied_all_defined _ _ E1).
  rewrite (consolidateJobs_at _ _ _ _ (lookup_insert_store _ _ _ _ H)).
  fold ws2. rewrite all_defined_alter_all, applied_alter_all.
  by rewrite list_insert_insert_eq, alter_all_app.
Qed.
End ApplyResults.

Section WritesOf.
Implicit Types (d : Dict) (k : string) (ws : list Write) (results : BatchResults).

Lemma writes_of_keys results : (writes_of results).*1 = mentioned results.
Proof.
  unfold writes_of, mentioned. rewrite fmap_app, <- !list_fmap_compose. done.
Qed.

Lemma patch_for_unique ws k p :
  NoDup ws.*1 -> (k, p) ∈ ws -> patch_for k ws = p.
Proof.
  induction ws as [|w ws IH]; csimpl; intros Hnd Hin.
  - by apply elem_of_nil in Hin.
  - apply NoDup_cons in Hnd as [Hw Hnd].
    apply elem_of_cons in Hin as [<-|Hin]; simpl.
    + rewrite decide_True by done.
      by rewrite patch_for_not_mentioned, patch_then_no_patch_r.
    + rewrite decide_False; [auto|]. intros Hk. apply Hw. rewrite Hk.
      apply list_elem_of_fmap. by exists (k, p).
Qed.

Lemma all_defined_Forall ws d :
  Forall (fun k => is_Some (dict_get d k)) ws.*1 -> all_defined ws d = true.
Proof.
  unfold all_defined. induction ws as [|w ws IH]; csimpl; [done|].
  intros [Hw Hws]%Forall_cons. by rewrite bool_decide_eq_true_2, IH.
Qed.
End WritesOf.

(** ** Consolidation *)

(** C4.  Consolidation is idempotent: applying the same poll output (the
    response items and the unprocessed list) to the dictionary a second
    time gives the store, and the completion, of the first time. *)
Theorem consolidation_idempotent (st : Store) (a : ref) (d : Dict)
    (results : BatchResults) :
  st !! a = Some d -> NoDup (dict_keys d) ->
  apply_results (Some a) results (apply_results (Some a) results st).2
  = apply_results (Some a) results st.
Proof.
  intros H Hnd. rewrite (apply_results_at _ _ _ _ H). simpl.
  rewrite (apply_results_at _ _ _ _ (lookup_insert_store _ _ _ _ H)).
  rewrite all_defined_alter_all, applied_alter_all, list_insert_insert_eq.
  by rewrite alter_all_idem.
Qed.


(** ** The identifiers [getRunningJobs] collects *)

Section RunningJobs.
Implicit Types (st : Store) (a : ref) (d : Dict).

Lemma running_ids_cons k t d :
  running_ids ((k, Some t) :: d)
  = if is_running (status t) then id t :: running_ids d else running_ids d.
Proof.
  unfold running_ids, dict_tasks. csimpl. rewrite filter_cons.
  destruct (is_running (status t)) eqn:E.
  - by case_decide.
  - by case_decide.
Qed.

Lemma getRunningJobs_loop_at st a d (rest : Dict) acc :
  st !! a = Some d -> NoDup (dict_keys d) -> rest ⊆ d -> Forall slot_ok rest ->
  getRunningJobs_loop (Some a) (dict_keys rest) acc st
  = (Normal (acc ++ running_ids rest), st).
Proof.
  intros H Hnd. revert acc.
  induction rest as [|[k v] rest IH]; intros acc Hsub Hok; csimpl.
  - by rewrite app_nil_r.
  - apply Forall_cons in Hok as [Hkv Hok].
    destruct v as [t|]; [|done].
    unfold bind at 1. rewrite (get_at _ _ _ _ H).
    rewrite (dict_get_elem_of d k (Some t)) by (auto; apply Hsub; left).
    unfold bind at 1. unfold to_object at 1, ret at 1.
    assert (rest ⊆ d) as Hsub' by (intros x Hx; apply Hsub; by right).
    rewrite running_ids_cons.
    destruct (is_running (status t)); rewrite IH by done; [|done].
    by rewrite <- app_assoc.
Qed.

Lemma getRunningJobs_at st a d :
  st !! a = Some d -> wf_dict d ->
  getRunningJobs (Some a) st = (Normal (running_ids d), st).
Proof.
  intros H [Hnd Hok]. unfold getRunningJobs.
  unfold bind at 1. rewrite (Object_keys_at _ _ _ H).
  by rewrite (getRunningJobs_loop_at _ _ _ _ _ H).
Qed.

(** [getRunningJobs(undefined)] throws. *)
Lemma getRunningJobs_undefined st :
  getRunningJobs None st = (Throw TypeError, st).
Proof. done. Qed.

(** No identifier is collected exactly when every task is terminal. *)
Lemma running_ids_nil d : running_ids d = [] <-> all_terminal d.
Proof.
  unfold running_ids, all_terminal.
  induction (dict_tasks d) as [|t ts IH]; csimpl.
  - split; [constructor|done].
  - rewrite filter_cons, Forall_cons. case_decide as Hrun.
    + csimpl. split; [done|]. intros [Ht _]. by destruct (status t).
    + rewrite IH. split; [|tauto]. intros Hts. split; [|done].
      by destruct (status t).
Qed.

Lemma elem_of_running_ids d i :
  i ∈ running_ids d <->
  exists t, t ∈ dict_tasks d /\ is_running (status t) /\ id t = i.
Proof.
  unfold running_ids. rewrite list_elem_of_fmap. split.
  - intros (t & -> & [Hrun Hin]%list_elem_of_filter). by exists t.
  - intros (t & Hin & Hrun & <-). exists t. split; [done|].
    by apply list_elem_of_filter.
Qed.

Lemma elem_of_dict_tasks d t :
  t ∈ dict_tasks d <-> exists k, (k, Some t) ∈ d.
Proof.
  unfold dict_tasks. rewrite list_elem_of_omap. split.
  - intros [[k v] [Hin Hv]]. simpl in Hv. subst. eauto.
  - intros [k Hin]. by exists (k, Some t).
Qed.

(** In a well-formed dictionary the collected identifiers are keys of
    queued or running tasks. *)
Lemma running_ids_pending_ok d : wf_dict d -> pending_ok d (Some (running_ids d)).
Proof.
  intros [Hnd Hok]. unfold pending_ok. apply Forall_forall. intros [s|] Hin; [|done].
  apply elem_of_running_ids in Hin as (t & Ht & Hrun & Hid).
  apply elem_of_dict_tasks in Ht as [k Hin].
  rewrite Forall_forall in Hok. pose proof (Hok _ Hin) as Hslot.
  unfold slot_ok in Hslot. simpl in Hslot. rewrite Hid in Hslot. simpl in Hslot. subst k.
  by rewrite (dict_get_elem_of _ _ _ Hnd Hin).
Qed.
End RunningJobs.

(** ** Operations that only read the store *)

Section ReadOnly.
Implicit Types (st : Store) (r : JsRef).

Lemma deref_store r st : (deref r st).2 = st.
Proof. unfold deref. destruct r as [a|]; [|done]. by destruct (st !! a). Qed.

Lemma get_store r k st : (get r k st).2 = st.
Proof.
  unfold get, bind. pose proof (deref_store r st) as H.
  by destruct (deref r st) as [[?|?] ?].
Qed.

Lemma Object_keys_store r st : (Object_keys r st).2 = st.
Proof.
  unfold Object_keys, bind. pose proof (deref_store r st) as H.
  by destruct (deref r st) as [[?|?] ?].
Qed.

Lemma Object_values_store r st : (Object_values r st).2 = st.
Proof.
  unfold Object_values, bind. pose proof (deref_store r st) as H.
  by destruct (deref r st) as [[?|?] ?].
Qed.

Lemma getRunningJobs_loop_store r ks acc st :
  (getRunningJobs_loop r ks acc st).2 = st.
Proof.
  revert acc. induction ks as [|k ks IH]; intros acc; simpl; [done|].
  unfold bind at 1. pose proof (get_store r k st) as H.
  destruct (get r k st) as [[[t|]|?] ?]; simpl in *; subst; try done.
  unfold bind, to_object, ret. by destruct (is_running (status t)).
Qed.

Lemma getRunningJobs_store r st : (getRunningJobs r st).2 = st.
Proof.
  unfold getRunningJobs, bind. pose proof (Object_keys_store r st) as H.
  destruct (Object_keys r st) as [[ks|?] ?]; simpl in *; subst; [|done].
  apply getRunningJobs_loop_store.
Qed.

Lemma monitor_store r st : (monitor r st).2 = st.
Proof.
  unfold monitor, bind. pose proof (getRunningJobs_store r st) as H.
  destruct (getRunningJobs r st) as [[ids|?] ?]; simpl in *; subst; [|done].
  by destruct (0 <? length ids)%nat.
Qed.

Lemma finishUp_store r st : (finishUp r st).2 = st.
Proof.
  unfold finishUp, bind. pose proof (Object_values_store r st) as H.
  by destruct (Object_values r st) as [[?|?] ?].
Qed.

Lemma draw_rows_store r ks st : (draw_rows r ks st).2 = st.
Proof.
  induction ks as [|k ks IH]; simpl; [done|].
  unfold bind at 1. pose proof (get_store r k st) as H.
  destruct (get r k st) as [[[t|]|?] ?]; simpl in *; subst; try done.
  unfold bind, ret. simpl.
  by destruct (draw_rows r ks st) as [[?|?] ?].
Qed.

Lemma draw_store r st : (draw r st).2 = st.
Proof.
  unfold draw. unfold bind at 1. pose proof (Object_keys_store r st) as H.
  destruct (Object_keys r st) as [[ks|?] ?]; simpl in *; subst; [|done].
  unfold bind at 1. pose proof (draw_rows_store r ks st) as H.
  by destruct (draw_rows r ks st) as [[?|?] ?].
Qed.

Lemma finishUp_at st a d :
  st !! a = Some d ->
  finishUp (Some a) st
  = (Normal [writeFileSync (JSON_stringify (dict_values d)); process_exit 0], st).
Proof. intros H. unfold finishUp, bind. by rewrite (Object_values_at _ _ _ H). Qed.
End ReadOnly.

(** ** The steps of the process *)

Section Steps.
Implicit Types (p : Process) (a : ref) (d : Dict).

Lemma registry_Some p d :
  registry p = Some d <-> exists a, jobIndex p = Some a /\ store p !! a = Some d.
Proof.
  unfold registry. destruct (jobIndex p) as [a|]; split.
  - eauto.
  - by intros (? & [= <-] & ?).
  - done.
  - by intros (? & ? & ?).
Qed.

Lemma monitor_at st a d :
  st !! a = Some d -> wf_dict d ->
  monitor (Some a) st
  = (Normal (match running_ids d with
             | [] => ResolvedUndefined
             | ids => CallIssued ids
             end), st).
Proof.
  intros H Hwf. unfold monitor, bind. rewrite (getRunningJobs_at _ _ _ H Hwf).
  by destruct (running_ids d).
Qed.

(** The timer's callback in a well-formed state. *)
Lemma interval_callback_at p a d :
  jobIndex p = Some a -> store p !! a = Some d -> wf_dict d ->
  interval_callback p
  = match running_ids d with
    | [] =>
        (mkProcess (store p) (jobIndex p) (INDEX p) None (stop_pending p)
                   (Some (Exited 0)),
         [writeFileSync (JSON_stringify (dict_values d)); process_exit 0])
    | ids =>
        (mkProcess (store p) (jobIndex p) (INDEX p) (Some ids) (stop_pending p) None,
         [batchGetQueryExecution ids])
    end.
Proof.
  intros Hj H Hwf. unfold interval_callback. rewrite Hj.
  rewrite (monitor_at _ _ _ H Hwf).
  destruct (running_ids d); [|done]. by rewrite (finishUp_at _ _ _ H).
Qed.

(** The timer's callback never writes the store. *)
Lemma interval_callback_store p : store (interval_callback p).1 = store p.
Proof.
  unfold interval_callback.
  pose proof (monitor_store (jobIndex p) (store p)) as Hm.
  destruct (monitor (jobIndex p) (store p)) as [[[ids|]|e] st]; simpl in *; subst;
    try done.
  pose proof (finishUp_store (jobIndex p) (store p)) as Hf.
  by destruct (finishUp (jobIndex p) (store p)) as [[?|?] ?].
Qed.

(** The failure of the batched call: logged, exit code 1, and the store
    as it was. *)
Lemma batch_returns_error p message :
  batch_returns p (BatchError message)
  = (mkProcess (store p) (jobIndex p) (INDEX p) None (stop_pending p)
               (Some (Exited 1)),
     [console_log (ServiceError message); process_exit 1]).
Proof. done. Qed.
End Steps.

(** ** The cycle driver *)

(** C2.  When the timer fires in a well-formed state with no call in
    flight, the cycle ends the run through [finishUp] with exit code 0 if
    and only if every task of the dictionary is terminal; it then writes
    the results and makes no call of the service.  While some task is
    queued or running it issues the batched call and does not finish. *)
Theorem cycle_driver_terminal (p : Process) (d : Dict) :
  wf_process p -> registry p = Some d ->
  exited p = None -> poll_pending p = None ->
  exists p' acts,
    step p Tick = Some (p', acts) /\
    (exited p' = Some (Exited 0) <-> all_terminal d) /\
    (all_terminal d ->
       acts = [writeFileSync (JSON_stringify (dict_values d)); process_exit 0]) /\
    (~ all_terminal d ->
       exited p' = None /\ running_ids d <> [] /\
       acts = [batchGetQueryExecution (running_ids d)]).
Proof.
  intros Hwf Hreg Hex Hpoll. unfold wf_process in Hwf. rewrite Hreg in Hwf.
  destruct Hwf as (Hd & _ & _).
  apply registry_Some in Hreg as (a & Hj & Hst).
  unfold step. rewrite Hex, Hpoll.
  rewrite (interval_callback_at _ _ _ Hj Hst Hd).
  pose proof (running_ids_nil d) as Hnil.
  destruct (running_ids d) as [|i ids] eqn:E; eexists _, _; (split; [done|]); simpl.
  - split; [tauto|]. split; [done|]. intros Hne. destruct Hne. by apply Hnil.
  - split; [|split]; try done.
    + split; [done|]. intros Ht. by apply Hnil in Ht.
    + intros Ht. by apply Hnil in Ht.
Qed.

(** The timer's callback leaves the process running only when it has
    issued the batched call. *)
Lemma interval_callback_alive (p : Process) :
  exited (interval_callback p).1 = None ->
  exists ids,
    interval_callback p
    = (mkProcess (store p) (jobIndex p) (INDEX p) (Some ids) (stop_pending p) None,
       [batchGetQueryExecution ids]).
Proof.
  unfold interval_callback.
  pose proof (monitor_store (jobIndex p) (store p)) as Hm.
  destruct (monitor (jobIndex p) (store p)) as [[[ids|]|e] st]; simpl in *; subst.
  - intros _. by exists ids.
  - by destruct (finishUp (jobIndex p) (store p)) as [[?|?] ?].
  - done.
Qed.

(** C7.  A cycle whose batched call fails ends the run with exit code 1,
    after logging the error, and leaves the store, hence every task of the
    dictionary, exactly as it was before the cycle. *)
Theorem poll_call_error_is_fatal (p p' : Process) (message : string)
    (acts : list Action) :
  exec p [Tick; BatchReturns (BatchError message)] = Some (p', acts) ->
  exited p' = Some (Exited 1) /\
  store p' = store p /\
  registry p' = registry p /\
  exists ids,
    acts = [batchGetQueryExecution ids;
            console_log (ServiceError message); process_exit 1].
Proof.
  simpl. unfold step at 1.
  destruct (exited p); [done|]. destruct (poll_pending p); [done|].
  destruct (exited (interval_callback p).1) eqn:Hex.
  - destruct (interval_callback p) as [p1 a1]. unfold step. simpl in Hex.
    by rewrite Hex.
  - apply interval_callback_alive in Hex as [ids Hic]. rewrite Hic.
    unfold step. simpl. intros [= <- <-]. simpl. unfold registry. simpl. eauto.
Qed.

(** ** Runs *)

Section Runs.
Implicit Types (p : Process) (es : list Event).

Lemma exec_app p es es' :
  exec p (es ++ es')
  = match exec p es with
    | Some (p1, acts1) =>
        match exec p1 es' with
        | Some (p2, acts2) => Some (p2, acts1 ++ acts2)
        | None => None
        end
    | None => None
    end.
Proof.
  revert p. induction es as [|e es IH]; intros p; simpl.
  - by destruct (exec p es') as [[? ?]|].
  - destruct (step p e) as [[p1 a1]|]; [|done]. rewrite IH.
    destruct (exec p1 es) as [[p2 a2]|]; [|done].
    destruct (exec p2 es') as [[p3 a3]|]; [|done]. by rewrite app_assoc.
Qed.

Lemma exec_exited p es p' acts :
  exited p <> None -> exec p es = Some (p', acts) -> es = [].
Proof.
  intros Hex. destruct es as [|e es]; [done|]. simpl. unfold step.
  by destruct (exited p).
Qed.
End Runs.

(** ** The interrupt *)

Section Interrupt.
Implicit Types (p : Process) (a : ref) (d : Dict).

Lemma stops_resolved_at p a d :
  INDEX p = Some a -> store p !! a = Some d ->
  stops_resolved p
  = (mkProcess (store p) (jobIndex p) (INDEX p) (poll_pending p) (Some [])
               (Some (Exited 0)),
     [writeFileSync (JSON_stringify (dict_values d)); process_exit 0]).
Proof.
  intros Hi H. unfold stops_resolved. rewrite Hi. by rewrite (finishUp_at _ _ _ H).
Qed.

Lemma sigint_handler_at p a d :
  INDEX p = Some a -> store p !! a = Some d -> wf_dict d ->
  sigint_handler p
  = match running_ids d with
    | [] =>
        (mkProcess (store p) (jobIndex p) (INDEX p) (poll_pending p) (Some [])
                   (Some (Exited 0)),
         [writeFileSync (JSON_stringify (dict_values d)); process_exit 0])
    | ids =>
        (mkProcess (store p) (jobIndex p) (INDEX p) (poll_pending p) (Some ids) None,
         stopQueryExecution <$> ids)
    end.
Proof.
  intros Hi H Hwf. unfold sigint_handler. rewrite Hi at 1.
  rewrite (getRunningJobs_at _ _ _ H Hwf).
  destruct (running_ids d); [|done].
  by rewrite (stops_resolved_at _ _ _ Hi H).
Qed.

(** With [INDEX] still [undefined] the handler throws before it issues a
    request. *)
Lemma sigint_handler_undefined p :
  INDEX p = None ->
  sigint_handler p
  = (mkProcess (store p) (jobIndex p) (INDEX p) (poll_pending p) (stop_pending p)
               (Some (UncaughtException TypeError)), []).
Proof. intros Hi. unfold sigint_handler. by rewrite Hi. Qed.

Lemma remove_first_Permutation (k : option string) l :
  k ∈ l -> l ≡ₚ k :: remove_first k l.
Proof.
  induction l as [|x l IH]; simpl; intros Hin.
  - by apply elem_of_nil in Hin.
  - destruct (decide (x = k)) as [->|Hne]; [done|].
    apply elem_of_cons in Hin as [->|Hin]; [done|].
    rewrite (IH Hin) at 1. apply Permutation_swap.
Qed.

(** The callbacks of the stop requests, in any order and with any
    outcome: the last one writes the results and exits with code 0, the
    others do nothing. *)
Lemma exec_stop_returns a d (returns : list (option string * option string)) :
  forall p waiting rest,
    exited p = None -> stop_pending p = Some waiting -> waiting <> [] ->
    INDEX p = Some a -> store p !! a = Some d ->
    returns.*1 ++ rest ≡ₚ waiting ->
    exists p' acts,
      exec p ((fun r => StopReturns r.1 r.2) <$> returns) = Some (p', acts) /\
      store p' = store p /\
      match rest with
      | [] =>
          exited p' = Some (Exited 0) /\
          acts = [writeFileSync (JSON_stringify (dict_values d)); process_exit 0]
      | _ => exited p' = None /\ acts = []
      end.
Proof.
  induction returns as [|[k err] returns IH];
    intros p waiting rest Hex Hstop Hne Hi Hst Hperm; csimpl in *.
  - exists p, []. repeat split.
    destruct rest; [|done]. apply Permutation_nil_l in Hperm. by subst.
  - assert (k ∈ waiting) as Hk by (rewrite <- Hperm; left).
    unfold step. rewrite Hex, Hstop. rewrite decide_True by done.
    pose proof (remove_first_Permutation _ _ Hk) as Hrm.
    rewrite Hrm in Hperm. apply Permutation_cons_inv in Hperm.
    unfold stop_returns.
    destruct (remove_first k waiting) as [|k' rest'] eqn:E.
    + apply Permutation_nil_r in Hperm.
      apply app_eq_nil in Hperm as [Hret ->].
      apply fmap_nil_inv in Hret as ->.
      rewrite (stops_resolved_at _ _ _ Hi Hst). simpl.
      eexists _, _. by repeat split.
    + edestruct (IH (mkProcess (store p) (jobIndex p) (INDEX p) (poll_pending p)
                               (Some (k' :: rest')) None) (k' :: rest') rest)
        as (p' & acts & Hexec & Hstore & Hrest); simpl; try done.
      rewrite Hexec. simpl. eexists _, _. by repeat split.
Qed.
End Interrupt.


(** ** The start of a run *)

Section Start.
Implicit Types (st : Store) (d : Dict) (tasks : list Task).

Lemma forEach_put_at tasks : forall st a d,
  st !! a = Some d ->
  forEach tasks (fun task => put (Some a) (ToPropertyKey (id task)) (Some task)) st
  = (Normal tt,
     <[a := foldl (fun d task => dict_set d (ToPropertyKey (id task)) (Some task))
                  d tasks]> st).
Proof.
  induction tasks as [|t tasks IH]; intros st a d H; simpl.
  - unfold ret. by rewrite list_insert_id.
  - unfold bind. rewrite (put_at _ _ _ _ _ H).
    rewrite (IH _ _ _ (lookup_insert_store _ _ _ _ H)).
    by rewrite list_insert_insert_eq.
Qed.

Lemma indexTasks_at tasks st :
  indexTasks tasks st = (Normal (Some (length st)), st ++ [index_dict tasks]).
Proof.
  unfold indexTasks, new_object. unfold bind at 1. unfold bind at 1.
  rewrite (forEach_put_at tasks (st ++ [[]]) (length st) []).
  - unfold ret. f_equal.
    rewrite insert_app_r_alt by done. by rewrite Nat.sub_diag.
  - by rewrite list_lookup_middle.
Qed.

Lemma run_eq files :
  run files
  = mkProcess [index_dict (executeQueries files)] (Some 0%nat) None None None None.
Proof. unfold run. by rewrite indexTasks_at. Qed.

Lemma dict_set_wf d (t : Task) :
  wf_dict d -> wf_dict (dict_set d (ToPropertyKey (id t)) (Some t)).
Proof.
  intros [Hnd Hok]. set (k := ToPropertyKey (id t)). split.
  - destruct (decide (k ∈ dict_keys d)) as [Hin|Hnin].
    + by rewrite dict_keys_set_in.
    + rewrite dict_keys_set_notin by done. apply NoDup_app. split; [done|].
      split; [|apply NoDup_singleton].
      intros x Hx ->%list_elem_of_singleton. done.
  - clear Hnd. induction Hok as [|[k' v'] d Hkv Hd IH]; csimpl.
    + by constructor.
    + destruct (decide (k' = k)); constructor; auto. done.
Qed.

Lemma index_dict_wf tasks : wf_dict (index_dict tasks).
Proof.
  unfold index_dict.
  assert (wf_dict []) as Hnil by (split; constructor).
  revert Hnil. generalize ([] : Dict).
  induction tasks as [|t tasks IH]; intros d Hd; simpl; [done|].
  apply IH. by apply dict_set_wf.
Qed.

(** The state in which [run] starts the timer is well-formed. *)
Lemma run_wf files : wf_process (run files).
Proof.
  rewrite run_eq. unfold wf_process, registry. simpl.
  split; [apply index_dict_wf|]. split; [by left|done].
Qed.
End Start.

(** ** What the steps keep *)

Section Frames.
Implicit Types (p : Process) (e : Event).

Lemma consolidateJobs_returns r jobs st ji st' :
  consolidateJobs r jobs st = (Normal ji, st') -> ji = r.
Proof.
  unfold consolidateJobs, bind, ret.
  destruct (Object_keys r st) as [[ks|?] st1]; [|done].
  destruct (forEach ks _ st1) as [[[]|?] st2]; [|done].
  destruct (forEach (failed jobs) _ st2) as [[[]|?] st3]; [|done].
  by intros [= <- _].
Qed.

(** The store after the callback of a successful batched call is the
    store [apply_results] gives, whether or not the rest of the cycle
    throws. *)
Lemma batch_returns_store p results :
  store (batch_returns p (BatchOk results)).1
  = (apply_results (jobIndex p) results (store p)).2.
Proof.
  unfold batch_returns, apply_results. unfold bind at 1.
  destruct (monitor_callback (jobIndex p) (BatchOk results) (store p))
    as [[[jobs|e]|e] st]; simpl; try done.
  unfold interval_resume.
  destruct (consolidateJobs (jobIndex p) jobs st) as [[ji|e] st1]; simpl; [|done].
  pose proof (draw_store ji st1) as Hdraw.
  by destruct (draw ji st1) as [[?|?] ?].
Qed.

Lemma batch_returns_frame p o :
  jobIndex (batch_returns p o).1 = jobIndex p /\
  (INDEX (batch_returns p o).1 = INDEX p \/
   INDEX (batch_returns p o).1 = jobIndex p /\ exists results, o = BatchOk results) /\
  stop_pending (batch_returns p o).1 = stop_pending p /\
  poll_pending (batch_returns p o).1 = None.
Proof.
  unfold batch_returns.
  destruct (monitor_callback (jobIndex p) o (store p))
    as [[[jobs|e]|e] st] eqn:Hm; simpl; try (repeat split; by left).
  unfold interval_resume.
  destruct (consolidateJobs (jobIndex p) jobs st) as [[ji|e] st1] eqn:Hc; simpl;
    [|repeat split; by left].
  apply consolidateJobs_returns in Hc as ->.
  assert (exists results, o = BatchOk results) as Hok.
  { destruct o; [|eauto]. by simplify_eq/=. }
  destruct (draw (jobIndex p) st1) as [[?|?] ?]; simpl; repeat split; by right.
Qed.

Lemma interval_callback_frame p :
  jobIndex (interval_callback p).1 = jobIndex p /\
  INDEX (interval_callback p).1 = INDEX p /\
  stop_pending (interval_callback p).1 = stop_pending p.
Proof.
  unfold interval_callback.
  destruct (monitor (jobIndex p) (store p)) as [[[ids|]|e] st]; simpl; try done.
  by destruct (finishUp (jobIndex p) st) as [[?|?] ?].
Qed.

Lemma stops_resolved_frame p :
  store (stops_resolved p).1 = store p /\
  jobIndex (stops_resolved p).1 = jobIndex p /\
  INDEX (stops_resolved p).1 = INDEX p /\
  poll_pending (stops_resolved p).1 = poll_pending p /\
  exited (stops_resolved p).1 = Some (Exited 0).
Proof.
  unfold stops_resolved. pose proof (finishUp_store (INDEX p) (store p)) as H.
  by destruct (finishUp (INDEX p) (store p)) as [[?|?] ?].
Qed.

Lemma sigint_handler_frame p :
  store (sigint_handler p).1 = store p /\
  jobIndex (sigint_handler p).1 = jobIndex p /\
  INDEX (sigint_handler p).1 = INDEX p /\
  poll_pending (sigint_handler p).1 = poll_pending p /\
  (exited (sigint_handler p).1 = None ->
   exists ids, stop_pending (sigint_handler p).1 = Some ids /\ ids <> []).
Proof.
  unfold sigint_handler.
  pose proof (getRunningJobs_store (INDEX p) (store p)) as H.
  destruct (getRunningJobs (INDEX p) (store p)) as [[[|i ids]|e] st];
    simpl in *; subst; try done.
  - pose proof (stops_resolved_frame p) as (? & ? & ? & ? & Hex).
    destruct (stops_resolved p) as [p' acts]. simpl in *.
    repeat split; try done. by rewrite Hex.
  - repeat split. intros _. by exists (i :: ids).
Qed.

Lemma stop_returns_frame p waiting k err :
  store (stop_returns p waiting k err).1 = store p /\
  jobIndex (stop_returns p waiting k err).1 = jobIndex p /\
  INDEX (stop_returns p waiting k err).1 = INDEX p /\
  poll_pending (stop_returns p waiting k err).1 = poll_pending p /\
  (exited (stop_returns p waiting k err).1 = None ->
   exists ids, stop_pending (stop_returns p waiting k err).1 = Some ids /\ ids <> []).
Proof.
  unfold stop_returns. destruct (remove_first k waiting) as [|k' rest].
  - pose proof (stops_resolved_frame p) as (? & ? & ? & ? & Hex).
    repeat split; try done. by rewrite Hex.
  - simpl. repeat split. intros _. by exists (k' :: rest).
Qed.

(** The interrupt path never writes the store. *)
Lemma interrupt_steps_keep_store p e p' acts :
  step p e = Some (p', acts) ->
  (e = SIGINT \/ exists k err, e = StopReturns k err) ->
  store p' = store p.
Proof.
  unfold step. destruct (exited p); [done|].
  intros Hstep [->|(k & err & ->)].
  - destruct (stop_pending p); [done|].
    assert (sigint_handler p = (p', acts)) as E by congruence.
    pose proof (sigint_handler_frame p) as (Hs & _). by rewrite E in Hs.
  - destruct (stop_pending p) as [waiting|]; [|done].
    case_decide; [|done].
    assert (stop_returns p waiting k err = (p', acts)) as E by congruence.
    pose proof (stop_returns_frame p waiting k err) as (Hs & _). by rewrite E in Hs.
Qed.
End Frames.

(** ** The global [INDEX] *)

Section Index.
Implicit Types (p : Process) (e : Event).

(** A step leaves [INDEX] alone, unless it is the return of a successful
    batched call, which can set it to [jobIndex]. *)
Lemma step_INDEX p e p' acts :
  step p e = Some (p', acts) ->
  INDEX p' = INDEX p \/
  INDEX p' = jobIndex p /\ exists results, e = BatchReturns (BatchOk results).
Proof.
  unfold step. destruct (exited p); [done|]. destruct e as [|o| |k err].
  - destruct (poll_pending p); [done|]. intros [= E].
    pose proof (interval_callback_frame p) as (_ & Hi & _). rewrite E in Hi. by left.
  - destruct (poll_pending p); [|done]. intros [= E].
    pose proof (batch_returns_frame p o) as (_ & Hi & _). rewrite E in Hi.
    destruct Hi as [?|[? [results ->]]]; [by left|right; eauto].
  - destruct (stop_pending p); [done|]. intros [= E].
    pose proof (sigint_handler_frame p) as (_ & _ & Hi & _). rewrite E in Hi. by left.
  - destruct (stop_pending p) as [waiting|]; [|done]. case_decide; [|done].
    intros [= E].
    pose proof (stop_returns_frame p waiting k err) as (_ & _ & Hi & _).
    rewrite E in Hi. by left.
Qed.

(** While [INDEX] is [undefined] no interrupt has been handled by a
    process that is still running. *)
Lemma step_keeps_undefined p e p' acts :
  INDEX p = None -> (exited p = None -> stop_pending p = None) ->
  step p e = Some (p', acts) ->
  (forall results, e <> BatchReturns (BatchOk results)) ->
  INDEX p' = None /\ (exited p' = None -> stop_pending p' = None).
Proof.
  intros Hi Hs Hstep Hne.
  pose proof (step_INDEX _ _ _ _ Hstep) as [HI|[_ [results ->]]];
    [|by destruct (Hne results)].
  split; [congruence|]. revert Hstep. unfold step.
  destruct (exited p) eqn:Hex; [done|]. specialize (Hs eq_refl).
  rewrite Hs. destruct e as [|o| |k err]; [| | |done].
  - destruct (poll_pending p); [done|]. intros [= E].
    pose proof (interval_callback_frame p) as (_ & _ & Hsp). rewrite E in Hsp.
    simpl in Hsp. congruence.
  - destruct (poll_pending p); [|done]. intros [= E].
    pose proof (batch_returns_frame p o) as (_ & _ & Hsp & _). rewrite E in Hsp.
    simpl in Hsp. congruence.
  - intros [= E]. rewrite (sigint_handler_undefined _ Hi) in E.
    by simplify_eq.
Qed.

Lemma exec_keeps_undefined es : forall p p' acts,
  INDEX p = None -> (exited p = None -> stop_pending p = None) ->
  exec p es = Some (p', acts) ->
  (forall results, BatchReturns (BatchOk results) ∉ es) ->
  INDEX p' = None /\ (exited p' = None -> stop_pending p' = None).
Proof.
  induction es as [|e es IH]; intros p p' acts Hi Hs; simpl.
  - by intros [= <- _] _.
  - destruct (step p e) as [[p1 a1]|] eqn:Hstep; [|done].
    destruct (exec p1 es) as [[p2 a2]|] eqn:Hexec; [|done].
    intros [= <- _] Hne.
    destruct (step_keeps_undefined _ _ _ _ Hi Hs Hstep) as [Hi1 Hs1].
    { intros results ->. apply (Hne results). left. }
    eapply IH; eauto. intros results Hin. apply (Hne results). by right.
Qed.
End Index.

(** C10.  Until the return of a successful batched call has been
    consolidated, [INDEX] is [undefined]: an interrupt that arrives then
    makes [getRunningJobs(INDEX)] throw, so the handler ends the process
    with an uncaught exception, having issued no stop request and written
    no results.  No other step assigns [INDEX], and that one assigns it
    the dictionary of [jobIndex]. *)
Theorem interrupt_before_first_consolidation (files : list (File * StartOutcome))
    (es : list Event) (p : Process) (acts : list Action) :
  exec (run files) es = Some (p, acts) ->
  (forall results, BatchReturns (BatchOk results) ∉ es) ->
  INDEX p = None /\
  getRunningJobs (INDEX p) (store p) = (Throw TypeError, store p) /\
  (exited p = None ->
   step p SIGINT
   = Some (mkProcess (store p) (jobIndex p) None (poll_pending p) (stop_pending p)
                     (Some (UncaughtException TypeError)), [])) /\
  (forall q e q' acts',
      step q e = Some (q', acts') -> INDEX q' <> INDEX q ->
      INDEX q' = jobIndex q /\ exists results, e = BatchReturns (BatchOk results)).
Proof.
  intros Hexec Hne.
  destruct (exec_keeps_undefined es (run files) p acts) as [Hi Hs]; try done.
  { by rewrite run_eq. }
  { by rewrite run_eq. }
  split; [done|]. split; [by rewrite Hi|]. split.
  - intros Hex. unfold step. rewrite Hex, (Hs Hex).
    rewrite (sigint_handler_undefined _ Hi). by rewrite Hi, (Hs Hex).
  - intros q e q' acts' Hstep Hchg.
    by destruct (step_INDEX _ _ _ _ Hstep) as [?|?].
Qed.

(** ** Polling after the interrupt *)

Section AfterInterrupt.
Implicit Types (p : Process) (e : Event).

Lemma step_SIGINT_stopping p p' acts :
  step p SIGINT = Some (p', acts) -> stopping p'.
Proof.
  unfold step. destruct (exited p); [done|]. destruct (stop_pending p); [done|].
  intros [= E]. pose proof (sigint_handler_frame p) as (_ & _ & _ & _ & Hs).
  rewrite E in Hs. simpl in Hs. unfold stopping.
  destruct (exited p'); [by left|right; auto].
Qed.

Lemma step_stopping p e p' acts :
  stopping p -> step p e = Some (p', acts) -> stopping p'.
Proof.
  unfold stopping, step. destruct (exited p); [done|].
  intros [?|(waiting & Hw & Hne)]; [done|]. rewrite Hw.
  destruct e as [|o| |k err]; [| |done|].
  - destruct (poll_pending p); [done|]. intros [= E].
    pose proof (interval_callback_frame p) as (_ & _ & Hs). rewrite E in Hs.
    simpl in Hs. right. exists waiting. split; congruence.
  - destruct (poll_pending p); [|done]. intros [= E].
    pose proof (batch_returns_frame p o) as (_ & _ & Hs & _). rewrite E in Hs.
    simpl in Hs. right. exists waiting. split; congruence.
  - case_decide; [|done]. intros [= E].
    pose proof (stop_returns_frame p waiting k err) as (_ & _ & _ & _ & Hs).
    rewrite E in Hs. simpl in Hs.
    destruct (exited p'); [by left|right; auto].
Qed.

Lemma exec_stopping es : forall p p' acts,
  stopping p -> exec p es = Some (p', acts) -> stopping p'.
Proof.
  induction es as [|e es IH]; intros p p' acts Hs; simpl.
  - by intros [= <- _].
  - destruct (step p e) as [[p1 a1]|] eqn:Hstep; [|done].
    destruct (exec p1 es) as [[p2 a2]|] eqn:Hexec; [|done].
    intros [= <- _]. eapply IH; [|done]. by eapply step_stopping.
Qed.
End AfterInterrupt.

(** C3, as the code has it.  The handler of the interrupt does not stop the
    timer.  A polling cycle that starts after the interrupt starts while
    the process still waits for the callback of at least one stop request;
    once the last callback has returned, or when the handler found no
    queued or running task, the process has exited and no cycle runs. *)
Theorem cycle_after_interrupt_only_while_stopping (p p' : Process)
    (es1 es2 : list Event) (acts : list Action) :
  exec p (es1 ++ SIGINT :: es2 ++ [Tick]) = Some (p', acts) ->
  exists p1 acts1 waiting,
    exec p (es1 ++ SIGINT :: es2) = Some (p1, acts1) /\
    exited p1 = None /\
    stop_pending p1 = Some waiting /\ waiting <> [].
Proof.
  replace (es1 ++ SIGINT :: es2 ++ [Tick]) with ((es1 ++ SIGINT :: es2) ++ [Tick])
    by (by rewrite <- app_assoc).
  rewrite exec_app.
  destruct (exec p (es1 ++ SIGINT :: es2)) as [[p1 acts1]|] eqn:Hexec; [|done].
  simpl. destruct (step p1 Tick) as [[p2 a2]|] eqn:Htick; [|done]. intros _.
  assert (stopping p1) as Hs.
  { rewrite exec_app in Hexec.
    destruct (exec p es1) as [[q aq]|]; [|done]. simpl in Hexec.
    destruct (step q SIGINT) as [[q1 aq1]|] eqn:Hsig; [|done].
    destruct (exec q1 es2) as [[q2 aq2]|] eqn:Hrest; [|done].
    simplify_eq. eapply exec_stopping; [|done]. by eapply step_SIGINT_stopping. }
  assert (exited p1 = None) as Hex.
  { revert Htick. unfold step. by destruct (exited p1). }
  destruct Hs as [?|(waiting & Hw & Hne)]; [done|].
  by exists p1, acts1, waiting.
Qed.

(** ** Well-formed states are kept *)

Section Invariant.
Implicit Types (p : Process) (e : Event) (d : Dict).

Lemma registry_ext p p' :
  store p' = store p -> jobIndex p' = jobIndex p -> registry p' = registry p.
Proof. unfold registry. by intros -> ->. Qed.

Lemma wf_process_ext p p' :
  store p' = store p -> jobIndex p' = jobIndex p -> INDEX p' = INDEX p ->
  poll_pending p' = poll_pending p -> wf_process p -> wf_process p'.
Proof.
  intros Hs Hj Hi Hp. unfold wf_process.
  by rewrite (registry_ext _ _ Hs Hj), Hi, Hj, Hp.
Qed.

Lemma wf_process_inv p :
  wf_process p ->
  exists d, registry p = Some d /\ wf_dict d /\
            (INDEX p = None \/ INDEX p = jobIndex p) /\
            pending_ok d (poll_pending p).
Proof. unfold wf_process. destruct (registry p) as [d|]; [eauto|done]. Qed.

(** Every step but the return of a successful batched call leaves the
    dictionary as it is. *)
Lemma step_registry_other p e p' acts :
  step p e = Some (p', acts) ->
  (forall results, e <> BatchReturns (BatchOk results)) ->
  registry p' = registry p.
Proof.
  unfold step. destruct (exited p); [done|].
  destruct e as [|[message|results]| |k err]; intros Hstep Hne.
  - destruct (poll_pending p); [done|].
    assert (interval_callback p = (p', acts)) as E by congruence.
    pose proof (interval_callback_store p) as Hs.
    pose proof (interval_callback_frame p) as (Hj & _).
    rewrite E in Hs, Hj. by apply registry_ext.
  - destruct (poll_pending p); [|done].
    rewrite batch_returns_error in Hstep. by simplify_eq.
  - by destruct (Hne results).
  - destruct (stop_pending p); [done|].
    assert (sigint_handler p = (p', acts)) as E by congruence.
    pose proof (sigint_handler_frame p) as (Hs & Hj & _).
    rewrite E in Hs, Hj. by apply registry_ext.
  - destruct (stop_pending p) as [waiting|]; [|done]. case_decide; [|done].
    assert (stop_returns p waiting k err = (p', acts)) as E by congruence.
    pose proof (stop_returns_frame p waiting k err) as (Hs & Hj & _).
    rewrite E in Hs, Hj. by apply registry_ext.
Qed.

(** The return of a successful batched call makes the writes of the
    response on the dictionary. *)
Lemma step_registry_batch p results p' acts d :
  registry p = Some d ->
  step p (BatchReturns (BatchOk results)) = Some (p', acts) ->
  registry p' = Some (alter_all (applied (writes_of results) d) d).
Proof.
  intros Hreg. unfold step. destruct (exited p); [done|].
  destruct (poll_pending p); [|done]. intros Hstep.
  assert (batch_returns p (BatchOk results) = (p', acts)) as E by congruence.
  pose proof (batch_returns_store p results) as Hs.
  pose proof (batch_returns_frame p (BatchOk results)) as (Hj & _).
  rewrite E in Hs, Hj. simpl in Hs, Hj.
  apply registry_Some in Hreg as (a & Ha & Hst). apply registry_Some. exists a.
  split; [congruence|]. rewrite Hs, Ha, (apply_results_at _ _ _ _ Hst). simpl.
  by apply (lookup_insert_store _ _ d).
Qed.

Lemma step_wf p e p' acts :
  wf_process p -> step p e = Some (p', acts) -> wf_process p'.
Proof.
  intros Hwf Hstep.
  destruct (wf_process_inv _ Hwf) as (d & Hreg & Hd & Hidx & Hpend).
  destruct e as [|[message|results]| |k err].
  - pose proof (step_registry_other _ _ _ _ Hstep ltac:(done)) as Hreg'.
    revert Hstep. unfold step. destruct (exited p); [done|].
    destruct (poll_pending p); [done|]. intros [= E].
    pose proof (interval_callback_frame p) as (Hj & Hi & _).
    rewrite E in Hj, Hi. simpl in Hj, Hi.
    unfold wf_process. rewrite Hreg', Hreg, Hi, Hj. split; [done|]. split; [done|].
    apply registry_Some in Hreg as (a & Ha & Hst).
    rewrite (interval_callback_at _ _ _ Ha Hst Hd) in E.
    destruct (running_ids d) as [|i ids] eqn:Eids; simpl in E;
      injection E as <- _; simpl; [done|].
    rewrite <- Eids. by apply running_ids_pending_ok.
  - pose proof (step_registry_other _ _ _ _ Hstep ltac:(done)) as Hreg'.
    revert Hstep. unfold step. destruct (exited p); [done|].
    destruct (poll_pending p); [|done]. rewrite batch_returns_error.
    intros [= <- _]. unfold wf_process. rewrite Hreg', Hreg. simpl. done.
  - pose proof (step_registry_batch _ _ _ _ _ Hreg Hstep) as Hreg'.
    revert Hstep. unfold step. destruct (exited p); [done|].
    destruct (poll_pending p); [|done]. intros [= E].
    pose proof (batch_returns_frame p (BatchOk results)) as (Hj & Hi & _ & Hp).
    rewrite E in Hj, Hi, Hp. simpl in Hj, Hi, Hp.
    unfold wf_process. rewrite Hreg', Hp, Hj. split; [by apply alter_all_wf|].
    split; [|done]. destruct Hi as [->|[-> _]]; [done|by right].
  - revert Hstep. unfold step. destruct (exited p); [done|].
    destruct (stop_pending p); [done|]. intros [= E].
    pose proof (sigint_handler_frame p) as (Hs & Hj & Hi & Hp & _).
    rewrite E in Hs, Hj, Hi, Hp. by eapply wf_process_ext.
  - revert Hstep. unfold step. destruct (exited p); [done|].
    destruct (stop_pending p) as [waiting|]; [|done]. case_decide; [|done].
    intros [= E].
    pose proof (stop_returns_frame p waiting k err) as (Hs & Hj & Hi & Hp & _).
    rewrite E in Hs, Hj, Hi, Hp. by eapply wf_process_ext.
Qed.

(** Every state a run reaches is well-formed. *)
Lemma exec_wf es : forall p p' acts,
  wf_process p -> exec p es = Some (p', acts) -> wf_process p'.
Proof.
  induction es as [|e es IH]; intros p p' acts Hwf; simpl.
  - by intros [= <- _].
  - destruct (step p e) as [[p1 a1]|] eqn:Hstep; [|done].
    destruct (exec p1 es) as [[p2 a2]|] eqn:Hexec; [|done].
    intros [= <- _]. eapply IH; [|done]. by eapply step_wf.
Qed.

Lemma reachable_wf files es p acts :
  exec (run files) es = Some (p, acts) -> wf_process p.
Proof. apply exec_wf, run_wf. Qed.
End Invariant.

(** ** Terminal tasks *)

Section Terminal.
Implicit Types (p : Process) (e : Event) (d : Dict).

Lemma applied_subseteq (ws : list Write) d : applied ws d ⊆ ws.
Proof.
  induction ws as [|w ws IH]; simpl; [done|].
  destruct (dict_get d w.1); [|apply list_subseteq_nil].
  intros x [->|Hx]%elem_of_cons; [left|right; auto].
Qed.

Lemma is_running_not_terminal (s : Status) : is_running s -> is_terminal s -> False.
Proof. by destruct s. Qed.

(** A response that answers the call in flight writes no task that was
    terminal when the call was made. *)
Lemma answers_not_terminal d ids results k t :
  pending_ok d (Some ids) -> answers ids results ->
  dict_get d k = Some t -> is_terminal (status t) ->
  k ∉ (applied (writes_of results) d).*1.
Proof.
  intros Hpend Hans Hk Hterm Hin.
  apply list_elem_of_fmap in Hin as ([k' q] & -> & Hin). simpl in Hk.
  apply applied_subseteq in Hin.
  assert (k' ∈ mentioned results) as Hm.
  { rewrite <- writes_of_keys. apply list_elem_of_fmap. by exists (k', q). }
  unfold answers in Hans. rewrite Forall_forall in Hans. apply Hans in Hm.
  unfold pending_ok in Hpend. rewrite Forall_forall in Hpend.
  apply Hpend in Hm. rewrite Hk in Hm. by eapply is_running_not_terminal.
Qed.

Lemma step_keeps_terminal p e p' acts d k t :
  wf_process p -> registry p = Some d -> answers_call p e ->
  step p e = Some (p', acts) ->
  dict_get d k = Some t -> is_terminal (status t) ->
  exists d', registry p' = Some d' /\ dict_get d' k = Some t.
Proof.
  intros Hwf Hreg Hans Hstep Hk Hterm.
  assert ((exists results, e = BatchReturns (BatchOk results)) \/
          (forall results, e <> BatchReturns (BatchOk results)))
    as [[results ->]|Hother].
  { destruct e as [|[?|results]| |]; try (by right). left. eauto. }
  - rewrite (step_registry_batch _ _ _ _ _ Hreg Hstep). eexists. split; [done|].
    destruct (wf_process_inv _ Hwf) as (d0 & Hreg0 & _ & _ & Hpend).
    assert (d0 = d) as -> by congruence.
    revert Hstep Hans. unfold step, answers_call. destruct (exited p); [done|].
    destruct (poll_pending p) as [ids|]; [|done]. intros _ Hans.
    rewrite alter_all_get, Hk. simpl. f_equal.
    rewrite patch_for_not_mentioned; [apply apply_no_patch|].
    by eapply answers_not_terminal.
  - exists d. split; [|done]. rewrite <- Hreg.
    by eapply step_registry_other.
Qed.
End Terminal.


(** ** JSON texts *)

Lemma json_nested_ind (P : json -> Prop) :
  P JNull ->
  (forall n, P (JNumber n)) ->
  (forall s, P (JString s)) ->
  (forall l, Forall P l -> P (JArray l)) ->
  (forall l, Forall (fun kv => P kv.2) l -> P (JObject l)) ->
  forall j, P j.
Proof.
  intros Hnull Hnum Hstr Harr Hobj. fix IH 1. intros [|n|s|l|l].
  - exact Hnull.
  - apply Hnum.
  - apply Hstr.
  - apply Harr. induction l as [|e l IHl]; constructor; [apply IH|exact IHl].
  - apply Hobj. induction l as [|[k e] l IHl]; constructor; [apply IH|exact IHl].
Qed.

Lemma unquote_quote_char c tail :
  unquote_chars (quote_char c tail) = cons_char c (unquote_chars tail).
Proof. destruct c as [[] [] [] [] [] [] [] []]; reflexivity. Qed.

Lemma unquote_quote_chars s rest :
  unquote_chars (quote_chars s (String "034" rest)) = Some (s, rest).
Proof.
  induction s as [|c s IH]; simpl; [done|].
  by rewrite unquote_quote_char, IH.
Qed.

Lemma span_digits_uint d rest :
  no_digit rest ->
  span_digits (NilEmpty.string_of_uint d ++ rest) = (NilEmpty.string_of_uint d, rest).
Proof.
  intros Hrest. induction d; simpl; rewrite ?IHd; try done.
  destruct rest as [|c r]; simpl in *; [done|]. by rewrite Hrest.
Qed.

Lemma N_to_uint_nonnil n : N.to_uint n <> Decimal.Nil.
Proof. destruct n as [|p]; [done|]. apply DecimalPos.Unsigned.to_uint_nonnil. Qed.

Lemma parse_natural_text n rest :
  no_digit rest ->
  parse_natural (NilEmpty.string_of_uint (N.to_uint n) ++ rest) = Some (n, rest).
Proof.
  intros Hrest. unfold parse_natural. rewrite span_digits_uint by done.
  pose proof (N_to_uint_nonnil n) as Hnil.
  rewrite NilEmpty.usu, DecimalN.Unsigned.of_to.
  by destruct (N.to_uint n).
Qed.

Lemma parse_number_text n rest :
  no_digit rest -> parse_number (number_text n rest) = Some (JNumber n, rest).
Proof.
  intros Hrest. unfold number_text. destruct (n <? 0)%Z eqn:E.
  - simpl. rewrite parse_natural_text by done.
    do 2 f_equal. apply Z.ltb_lt in E. rewrite N2Z.inj_abs_N. f_equal. lia.
  - apply Z.ltb_ge in E. unfold parse_number.
    pose proof (parse_natural_text (Z.to_N n) rest Hrest) as Hnat.
    pose proof (N_to_uint_nonnil (Z.to_N n)) as Hnil.
    destruct (N.to_uint (Z.to_N n)); try done; simpl in *;
      rewrite Hnat; by rewrite Z2N.id.
Qed.

Lemma number_text_head n rest :
  exists c s, number_text n rest = String c s /\
              (is_digit c = true \/ c = "-"%char).
Proof.
  unfold number_text. destruct (n <? 0)%Z; [by eauto|].
  pose proof (N_to_uint_nonnil (Z.to_N n)) as Hnil.
  destruct (N.to_uint (Z.to_N n)); try done; simpl; eauto.
Qed.

Lemma parse_value_number fuel n rest :
  no_digit rest ->
  parse_value (S fuel) (number_text n rest) = Some (JNumber n, rest).
Proof.
  intros Hrest. rewrite <- (parse_number_text n rest Hrest).
  destruct (number_text_head n rest) as (c & s & -> & Hc).
  simpl. destruct Hc as [Hc| ->]; [|done].
  destruct c as [[] [] [] [] [] [] [] []]; try done.
Qed.

(** A value does not start with a closing bracket. *)
Lemma json_text_not_closed j rest : expect "]" (json_text j rest) = None.
Proof.
  destruct j as [|n|s|l|l]; try done.
  destruct (number_text_head n rest) as (c & s & Hn & Hc). simpl. rewrite Hn. simpl.
  destruct Hc as [Hc| ->]; [|done].
  destruct c as [[] [] [] [] [] [] [] []]; try done.
Qed.

Lemma tail_text_no_digit {A} (item : A -> string -> string) close rest l :
  is_digit close = false -> no_digit (tail_text item close rest l).
Proof. by destruct l. Qed.

Lemma parse_elements_text l : forall x rest fuel,
  reads_back x -> Forall reads_back l ->
  (S (json_size x) + list_sum ((fun e => S (json_size e)) <$> l) <= fuel)%nat ->
  parse_elements fuel (json_text x (tail_text json_text "]" rest l))
  = Some (x :: l, rest).
Proof.
  induction l as [|y l IH]; intros x rest fuel Hx Hl Hfuel;
    (destruct fuel as [|fuel]; [lia|]); simpl.
  - rewrite Hx by (done || csimpl in *; lia). done.
  - apply Forall_cons in Hl as [Hy Hl].
    rewrite Hx by (done || csimpl in *; lia). simpl.
    rewrite IH; [done..|]. csimpl in *. lia.
Qed.

Lemma parse_members_text (l : list (string * json)) : forall k x rest fuel,
  reads_back x -> Forall (fun kv => reads_back kv.2) l ->
  (S (json_size x) + list_sum ((fun kv => S (json_size kv.2)) <$> l) <= fuel)%nat ->
  parse_members fuel
    (quote_string k
       (String ":"
          (json_text x
             (tail_text
                (fun kv rest => quote_string kv.1 (String ":" (json_text kv.2 rest)))
                "}" rest l))))
  = Some ((k, x) :: l, rest).
Proof.
  induction l as [|[k' y] l IH]; intros k x rest fuel Hx Hl Hfuel;
    (destruct fuel as [|fuel]; [lia|]); simpl.
  - rewrite unquote_quote_chars. simpl.
    rewrite Hx by (done || csimpl in *; lia). done.
  - apply Forall_cons in Hl as [Hy Hl]. rewrite unquote_quote_chars. simpl.
    rewrite Hx by (done || csimpl in *; lia). simpl.
    rewrite (IH k' y); [done..|]. csimpl in *. lia.
Qed.

Lemma parse_json_text j : reads_back j.
Proof.
  induction j as [|n|s|l IH|l IH] using json_nested_ind;
    intros rest fuel Hfuel Hrest; (destruct fuel as [|fuel]; [simpl in Hfuel; lia|]).
  - done.
  - by apply parse_value_number.
  - simpl. by rewrite unquote_quote_chars.
  - destruct l as [|x l]; [done|]. apply Forall_cons in IH as [Hx Hl].
    cbn [json_text sequence_text parse_value]. cbn [Ascii.eqb Bool.eqb].
    rewrite json_text_not_closed.
    rewrite parse_elements_text; try done.
    change (json_size (JArray (x :: l)))
      with (S (S (json_size x) + list_sum ((fun e => S (json_size e)) <$> l))) in Hfuel.
    lia.
  - destruct l as [|[k x] l]; [done|]. apply Forall_cons in IH as [Hx Hl].
    cbn [json_text sequence_text parse_value]. cbn [Ascii.eqb Bool.eqb].
    cbn [quote_string expect Ascii.eqb Bool.eqb].
    change (String "034" (quote_chars k ?r)) with (quote_string k r).
    rewrite parse_members_text; try done.
    change (json_size (JObject ((k, x) :: l)))
      with (S (S (json_size x) + list_sum ((fun kv => S (json_size kv.2)) <$> l)))
      in Hfuel.
    simpl. lia.
Qed.

(** ** Enough fuel *)

Lemma string_length_app (s1 s2 : string) :
  String.length (s1 ++ s2) = (String.length s1 + String.length s2)%nat.
Proof. induction s1 as [|c s1 IH]; simpl; [done|]. by rewrite IH. Qed.

Lemma quote_char_length c rest :
  (S (String.length rest) <= String.length (quote_char c rest))%nat.
Proof. unfold quote_char. repeat case_match; simpl; lia. Qed.

Lemma quote_chars_length s rest :
  (String.length rest <= String.length (quote_chars s rest))%nat.
Proof.
  induction s as [|c s IH]; simpl; [done|].
  pose proof (quote_char_length c (quote_chars s rest)). lia.
Qed.

Lemma quote_string_length s rest :
  (2 + String.length rest <= String.length (quote_string s rest))%nat.
Proof.
  unfold quote_string. simpl.
  pose proof (quote_chars_length s (String "034" rest)) as H. simpl in H. lia.
Qed.

Lemma number_text_length n rest :
  (1 + String.length rest <= String.length (number_text n rest))%nat.
Proof.
  unfold number_text. destruct (n <? 0)%Z; simpl.
  - rewrite string_length_app. lia.
  - rewrite string_length_app.
    pose proof (N_to_uint_nonnil (Z.to_N n)) as Hnil.
    destruct (N.to_uint (Z.to_N n)); try done; simpl; lia.
Qed.

Lemma tail_text_length {A} (item : A -> string -> string) (size : A -> nat)
    close rest (l : list A) :
  Forall (fun x => forall r,
            (size x + String.length r <= String.length (item x r))%nat) l ->
  (list_sum ((fun x => S (size x)) <$> l) + S (String.length rest)
   <= String.length (tail_text item close rest l))%nat.
Proof.
  induction 1 as [|x l Hx Hl IH]; csimpl; [lia|].
  specialize (Hx (tail_text item close rest l)). lia.
Qed.

Lemma sequence_text_length {A} (item : A -> string -> string) (size : A -> nat)
    open close rest (l : list A) :
  Forall (fun x => forall r,
            (size x + String.length r <= String.length (item x r))%nat) l ->
  (S (list_sum ((fun x => S (size x)) <$> l)) + String.length rest
   <= String.length (sequence_text item open close l rest))%nat.
Proof.
  intros Hl. unfold sequence_text. destruct Hl as [|x l Hx Hl]; csimpl; [lia|].
  pose proof (tail_text_length item size close rest l Hl).
  specialize (Hx (tail_text item close rest l)). lia.
Qed.

Lemma json_text_length j : forall rest,
  (json_size j + String.length rest <= String.length (json_text j rest))%nat.
Proof.
  induction j as [|n|s|l IH|l IH] using json_nested_ind; intros rest.
  - simpl. lia.
  - apply number_text_length.
  - pose proof (quote_string_length s rest). simpl in *. lia.
  - apply (sequence_text_length json_text json_size). exact IH.
  - apply (sequence_text_length
             (fun kv rest => quote_string kv.1 (String ":" (json_text kv.2 rest)))
             (fun kv => json_size kv.2)).
    eapply Forall_impl; [exact IH|]. intros kv Hkv r. cbv beta.
    pose proof (quote_string_length kv.1 (String ":" (json_text kv.2 r))) as Hq.
    specialize (Hkv r).
    change (String.length (String ":" (json_text kv.2 r)))
      with (S (String.length (json_text kv.2 r))) in Hq.
    lia.
Qed.

(** The text of a JSON value is parsed back to the value. *)
Lemma JSON_parse_text j : JSON_parse (JSON_text j) = Some j.
Proof.
  unfold JSON_parse, JSON_text.
  pose proof (json_text_length j EmptyString) as Hlen.
  rewrite parse_json_text; [done| |done]. simpl in Hlen. lia.
Qed.

(** ** The results document *)

Section Document.
Implicit Types (t : Task) (d : Dict).

Lemma Status_of_literal_literal (s : Status) :
  Status_of_literal (Status_literal s) = Some s.
Proof. by destruct s. Qed.

Lemma json_lookup_app_l (o1 o2 : list (string * json)) k j :
  json_lookup o1 k = Some j -> json_lookup (o1 ++ o2) k = Some j.
Proof.
  induction o1 as [|[k' j'] o1 IH]; simpl; [done|]. by destruct (decide (k' = k)).
Qed.

Lemma json_lookup_app_r (o1 o2 : list (string * json)) k :
  json_lookup o1 k = None -> json_lookup (o1 ++ o2) k = json_lookup o2 k.
Proof.
  induction o1 as [|[k' j'] o1 IH]; simpl; [done|]. by destruct (decide (k' = k)).
Qed.

Lemma json_lookup_property {A} (enc : A -> json) k k' (v : option A) :
  json_lookup (property k enc v) k' = if decide (k = k') then enc <$> v else None.
Proof.
  destruct v as [x|]; simpl; by destruct (decide (k = k')).
Qed.

(** What a reader finds under each property name of a serialized task:
    the value of a property the task has, and nothing, rather than
    [null], for a property it lacks. *)
Lemma json_of_task_lookup t :
  let o := properties (json_of_task t) in
  json_lookup o "name" = Some (JString (name t)) /\
  json_lookup o "query" = Some (JString (query t)) /\
  json_lookup o "id" = JString <$> id t /\
  json_lookup o "status" = Some (JString (Status_literal (status t))) /\
  json_lookup o "error" = JString <$> error t /\
  json_lookup o "starttime" = JString <$> starttime t /\
  json_lookup o "endtime" = JString <$> endtime t /\
  json_lookup o "runtime" = JNumber <$> runtime t /\
  json_lookup o "scanned" = JNumber <$> scanned t.
Proof.
  destruct t as [n q i s e st en rt sc]. simpl.
  repeat split; destruct i, e, st, en, rt, sc; reflexivity.
Qed.

Lemma task_of_json_of_task t : task_of_json (json_of_task t) = Some t.
Proof.
  pose proof (json_of_task_lookup t)
    as (Hn & Hq & Hi & Hs & He & Hst & Hen & Hrt & Hsc).
  unfold task_of_json. change (json_of_task t) with (JObject (properties (json_of_task t))).
  cbv beta iota. rewrite Hn, Hq, Hi, Hs, He, Hst, Hen, Hrt, Hsc. simpl.
  rewrite Status_of_literal_literal. simpl.
  destruct t as [n q i s e st en rt sc]. simpl.
  by destruct i, e, st, en, rt, sc.
Qed.

Lemma tasks_of_json_values (ts : list Task) :
  tasks_of_json (json_of_values (Some <$> ts)) = Some ts.
Proof.
  unfold tasks_of_json, json_of_values. apply mapM_Some.
  rewrite <- list_fmap_compose. apply Forall2_fmap_l, Forall_Forall2_diag.
  apply Forall_forall. intros t _. simpl. apply task_of_json_of_task.
Qed.

Lemma json_lookup_no_null t k :
  json_lookup (properties (json_of_task t)) k <> Some JNull.
Proof.
  destruct t as [n q i s e st en rt sc]. simpl.
  repeat (case_decide; [done|]).
  destruct i, e, st, en, rt, sc; simpl; repeat (case_decide; [done|]); done.
Qed.
End Document.


(** ** Submission and the dictionary *)

Section Submission.
Implicit Types (tasks : list Task) (d : Dict).

(** [executeQueries] gives one task for every file. *)
Lemma executeQueries_length files : length (executeQueries files) = length files.
Proof. unfold executeQueries. apply length_fmap. Qed.

Lemma foldl_dict_set_keys tasks : forall d,
  NoDup (dict_keys d ++ ((fun t => ToPropertyKey (id t)) <$> tasks)) ->
  dict_keys (foldl (fun d task => dict_set d (ToPropertyKey (id task)) (Some task))
                   d tasks)
  = dict_keys d ++ ((fun t => ToPropertyKey (id t)) <$> tasks).
Proof.
  induction tasks as [|t tasks IH]; intros d Hnd; csimpl in *.
  - by rewrite app_nil_r.
  - assert (ToPropertyKey (id t) ∉ dict_keys d) as Hnin.
    { apply NoDup_app in Hnd as (_ & Hdisj & _). intros Hin.
      apply (Hdisj _ Hin). left. }
    rewrite IH; rewrite dict_keys_set_notin by done.
    + by rewrite <- app_assoc.
    + by rewrite <- app_assoc.
Qed.

(** Where the keys of the tasks are distinct, which needs distinct
    identifiers and at most one failed submission, the dictionary has an
    entry for every task. *)
Lemma index_dict_length tasks :
  NoDup ((fun t => ToPropertyKey (id t)) <$> tasks) ->
  length (index_dict tasks) = length tasks.
Proof.
  intros Hnd. pose proof (foldl_dict_set_keys tasks [] Hnd) as Hkeys.
  apply (f_equal length) in Hkeys. unfold dict_keys in Hkeys. csimpl in Hkeys.
  by rewrite !length_fmap in Hkeys.
Qed.
End Submission.

(** C1.  Two files whose submissions both fail: [executeQueries] gives two
    tasks, neither with an identifier, and [indexTasks] stores both under
    the key ["undefined"], the second over the first, so that the
    dictionary has one entry. *)
Theorem failed_submissions_share_one_key :
  length (executeQueries ex_failed_files) = 2%nat /\
  registry (run ex_failed_files)
  = Some [("undefined",
           Some (mkTask "sql/b.sql" "select 2" None FAILED (Some "throttled")
                        None None None None))].
Proof. split; reflexivity. Qed.

(** C3, as stated, fails: after the first cycle of the example run one
    query is still running; the interrupt issues its stop request, and
    when the timer fires before the request has returned the next cycle
    runs and issues the batched call. *)
Lemma cycle_runs_after_interrupt :
  polls_after_interrupt [Tick; BatchReturns (BatchOk ex_results); SIGINT; Tick] /\
  exists p,
    exec (run ex_files) [Tick; BatchReturns (BatchOk ex_results); SIGINT; Tick]
    = Some (p, [batchGetQueryExecution [Some "q-2"; Some "q-3"];
                draw_screen (dict_tasks ex_polled_dict);
                stopQueryExecution (Some "q-3");
                batchGetQueryExecution [Some "q-3"]]) /\
    exited p = None.
Proof.
  split.
  - exists [Tick; BatchReturns (BatchOk ex_results)], [Tick]. split; [done|]. left.
  - eexists. split; [vm_compute; reflexivity|reflexivity].
Qed.

(** ** The scenarios of the specification *)

(** Three units, the first fails at submission; the first poll reports the
    second as SUCCEEDED with 1200 ms and 2048 bytes, the third as
    RUNNING. *)
Example scenario_first_poll :
  registry ex_polled
  = Some [("undefined",
           Some (mkTask "sql/a.sql" "select 1" None FAILED (Some "access denied")
                        None None None None));
          ("q-2",
           Some (mkTask "sql/b.sql" "select 2" (Some "q-2") SUCCEEDED None
                        (Some "2019-03-01T10:00:00.000Z")
                        (Some "2019-03-01T10:00:02.000Z") (Some 1200) (Some 2048)));
          ("q-3",
           Some (mkTask "sql/c.sql" "select 3" (Some "q-3") RUNNING None
                        (Some "2019-03-01T10:00:00.000Z") None (Some 300) (Some 0)))].
Proof. reflexivity. Qed.

(** The next poll returns the third identifier as unprocessed: the task
    becomes FAILED with the message, and the run goes on. *)
Example scenario_unprocessed :
  dict_get (default [] (registry ex_after_second_cycle.1)) "q-3"
  = Some (mkTask "sql/c.sql" "select 3" (Some "q-3") FAILED (Some "internal error")
                 (Some "2019-03-01T10:00:00.000Z") None (Some 300) (Some 0)) /\
  exited ex_after_second_cycle.1 = None.
Proof. split; reflexivity. Qed.

(** The text of the results after the first cycle. *)
Example scenario_results_text :
  JSON_parse (JSON_stringify (dict_values ex_polled_dict))
  = Some (json_of_values (dict_values ex_polled_dict)).
Proof. vm_compute. reflexivity. Qed.

(** ** The statements on the example run *)

(** The timer fires after submission in the example run. *)
Lemma cycle_driver_terminal_witness :
  wf_process (run ex_files) /\
  exists p' acts,
    step (run ex_files) Tick = Some (p', acts) /\
    (exited p' = Some (Exited 0) <-> all_terminal ex_dict) /\
    (all_terminal ex_dict ->
       acts = [writeFileSync (JSON_stringify (dict_values ex_dict)); process_exit 0]) /\
    (~ all_terminal ex_dict ->
       exited p' = None /\ running_ids ex_dict <> [] /\
       acts = [batchGetQueryExecution (running_ids ex_dict)]).
Proof.
  assert (wf_process (run ex_files)) as Hwf
    by (apply (bool_decide_unpack _); vm_compute; exact I).
  split; [exact Hwf|].
  apply (cycle_driver_terminal (run ex_files) ex_dict Hwf); reflexivity.
Defined.

(** In the example run the timer fires while the stop request for the
    running query waits for its callback. *)
Lemma cycle_after_interrupt_only_while_stopping_witness :
  exists p1 acts1 waiting,
    exec (run ex_files) ([Tick; BatchReturns (BatchOk ex_results)] ++ SIGINT :: [])
    = Some (p1, acts1) /\
    exited p1 = None /\ stop_pending p1 = Some waiting /\ waiting <> [].
Proof.
  apply (cycle_after_interrupt_only_while_stopping (run ex_files)
           ex_after_late_tick.1 [Tick; BatchReturns (BatchOk ex_results)] []
           ex_after_late_tick.2).
  vm_compute. reflexivity.
Defined.

(** The first response of the example run, applied twice. *)
Lemma consolidation_idempotent_witness :
  NoDup (dict_keys ex_dict) /\
  apply_results (Some 0%nat) ex_results
    (apply_results (Some 0%nat) ex_results [ex_dict]).2
  = apply_results (Some 0%nat) ex_results [ex_dict].
Proof.
  assert (NoDup (dict_keys ex_dict)) as Hnd
    by (apply (bool_decide_unpack _); vm_compute; exact I).
  split; [exact Hnd|].
  apply (consolidation_idempotent [ex_dict] 0%nat ex_dict ex_results);
    [reflexivity|exact Hnd].
Defined.



(** The second batched call of the example run fails. *)
Lemma poll_call_error_is_fatal_witness :
  exited ex_after_error.1 = Some (Exited 1) /\
  store ex_after_error.1 = store ex_polled /\
  registry ex_after_error.1 = registry ex_polled /\
  exists ids,
    ex_after_error.2
    = [batchGetQueryExecution ids;
       console_log (ServiceError "socket hang up"); process_exit 1].
Proof.
  apply (poll_call_error_is_fatal ex_polled ex_after_error.1 "socket hang up"
           ex_after_error.2).
  vm_compute. reflexivity.
Defined.



(** The interrupt while the first batched call of the example run is in
    flight. *)
Lemma interrupt_before_first_consolidation_witness :
  poll_pending ex_in_flight.1 = Some [Some "q-2"; Some "q-3"] /\
  INDEX ex_in_flight.1 = None /\
  step ex_in_flight.1 SIGINT
  = Some (mkProcess (store ex_in_flight.1) (jobIndex ex_in_flight.1) None
                    (poll_pending ex_in_flight.1) (stop_pending ex_in_flight.1)
                    (Some (UncaughtException TypeError)), []).
Proof.
  split; [reflexivity|].
  destruct (interrupt_before_first_consolidation ex_files [Tick]
              ex_in_flight.1 ex_in_flight.2)
    as (Hi & _ & Hstep & _).
  - vm_compute. reflexivity.
  - intros results Hin. apply list_elem_of_singleton in Hin. discriminate Hin.
  - split; [exact Hi|]. apply Hstep. reflexivity.
Defined.

(** * Further properties *)

(** ** The keys and the identity of the tasks *)

Lemma step_registry_identity (p : Process) (e : Event) (p' : Process)
    (acts : list Action) (d : Dict) :
  registry p = Some d -> step p e = Some (p', acts) ->
  exists d',
    registry p' = Some d' /\
    dict_keys d' = dict_keys d /\
    forall k t, dict_get d k = Some t ->
      exists t', dict_get d' k = Some t' /\
                 name t' = name t /\ query t' = query t /\ id t' = id t.
Proof.
  intros Hreg Hstep.
  assert ((exists results, e = BatchReturns (BatchOk results)) \/
          (forall results, e <> BatchReturns (BatchOk results)))
    as [[results ->]|Hother].
  { destruct e as [|[?|results]| |]; try (by right). left. eauto. }
  - rewrite (step_registry_batch _ _ _ _ _ Hreg Hstep). eexists. split; [done|].
    split; [apply alter_all_keys|]. intros k t Hk.
    rewrite alter_all_get, Hk. simpl. eauto.
  - exists d. rewrite <- Hreg. split; [by eapply step_registry_other|].
    split; [done|]. intros k t Hk. eauto.
Qed.


(** ** The size of the dictionary *)

Section IndexSize.
Implicit Types (tasks : list Task) (d : Dict).

Lemma remove_dups_length_elements {A} `{EqDecision A} (l1 l2 : list A) :
  (forall x, x ∈ l1 <-> x ∈ l2) ->
  length (remove_dups l1) = length (remove_dups l2).
Proof.
  intros Hel. apply Permutation_length, NoDup_Permutation;
    [apply NoDup_remove_dups..|].
  intros x. by rewrite !elem_of_remove_dups.
Qed.

Lemma remove_dups_length_le {A} `{EqDecision A} (l : list A) :
  (length (remove_dups l) <= length l)%nat.
Proof.
  induction l as [|x l IH]; csimpl; [done|]. case_decide; simpl; lia.
Qed.

Lemma remove_dups_length_NoDup {A} `{EqDecision A} (l : list A) :
  length (remove_dups l) = length l <-> NoDup l.
Proof.
  split.
  - induction l as [|x l IH]; csimpl; [constructor|].
    case_decide as Hin.
    + intros Hlen. pose proof (remove_dups_length_le l). lia.
    + intros [= Hlen]. constructor; auto.
  - intros Hnd. apply Permutation_length, NoDup_Permutation;
      [apply NoDup_remove_dups|done|].
    intros x. by rewrite elem_of_remove_dups.
Qed.

Lemma dict_set_keys_elements d k v x :
  x ∈ dict_keys (dict_set d k v) <-> x = k \/ x ∈ dict_keys d.
Proof.
  destruct (decide (k ∈ dict_keys d)) as [Hin|Hnin].
  - rewrite dict_keys_set_in by done. split; [by right|]. by intros [->|?].
  - rewrite dict_keys_set_notin by done.
    rewrite elem_of_app, list_elem_of_singleton. tauto.
Qed.

Lemma dict_set_keys_NoDup d k v :
  NoDup (dict_keys d) -> NoDup (dict_keys (dict_set d k v)).
Proof.
  intros Hnd. destruct (decide (k ∈ dict_keys d)) as [Hin|Hnin].
  - by rewrite dict_keys_set_in.
  - rewrite dict_keys_set_notin by done. apply NoDup_app. split; [done|].
    split; [|apply NoDup_singleton]. by intros x Hx ->%list_elem_of_singleton.
Qed.

Lemma foldl_dict_set_length tasks : forall d,
  NoDup (dict_keys d) ->
  length (foldl (fun d task => dict_set d (ToPropertyKey (id task)) (Some task))
                d tasks)
  = length (remove_dups (dict_keys d ++ ((fun t => ToPropertyKey (id t)) <$> tasks))).
Proof.
  induction tasks as [|t tasks IH]; intros d Hnd; csimpl.
  - rewrite app_nil_r. unfold dict_keys at 1.
    rewrite (proj2 (remove_dups_length_NoDup _) Hnd).
    unfold dict_keys. by rewrite length_fmap.
  - rewrite IH by by apply dict_set_keys_NoDup.
    apply remove_dups_length_elements. intros x.
    rewrite !elem_of_app, dict_set_keys_elements, elem_of_cons. tauto.
Qed.
End IndexSize.


(** ** What the dictionary holds under a key *)

Lemma index_dict_snoc (tasks : list Task) (t : Task) :
  index_dict (tasks ++ [t]) = dict_set (index_dict tasks) (task_key t) (Some t).
Proof. unfold index_dict. by rewrite foldl_app. Qed.

(** A task of the dictionary is a task of the array. *)
Lemma index_dict_get_elem_of (tasks : list Task) (k : string) (t : Task) :
  dict_get (index_dict tasks) k = Some t -> t ∈ tasks.
Proof.
  induction tasks as [|t' tasks IH] using rev_ind; [done|].
  rewrite index_dict_snoc, elem_of_app.
  destruct (decide (task_key t' = k)) as [<-|Hne].
  - rewrite dict_get_set_eq. intros [= ->]. right. left.
  - rewrite dict_get_set_ne by done. auto.
Qed.


(** ** The identifiers sent to the service *)

Section SentIdentifiers.
Implicit Types (p : Process) (d : Dict) (e : Event).

Lemma dict_tasks_keys d :
  Forall slot_ok d -> task_key <$> dict_tasks d = dict_keys d.
Proof.
  unfold dict_tasks, dict_keys.
  induction 1 as [|[k [t|]] d Hkv Hd IH]; csimpl; [done| |done].
  unfold slot_ok in Hkv. simpl in Hkv. by rewrite IH, <- Hkv.
Qed.

Lemma NoDup_fmap_filter {A B} (f : A -> B) (P : A -> Prop)
    `{!forall x, Decision (P x)} (l : list A) :
  NoDup (f <$> l) -> NoDup (f <$> filter P l).
Proof.
  induction l as [|x l IH]; csimpl; [done|].
  intros [Hx Hl]%NoDup_cons. rewrite filter_cons. case_decide; csimpl; [|auto].
  apply NoDup_cons. split; [|auto].
  intros (y & Hy & [_ Hin]%list_elem_of_filter)%list_elem_of_fmap.
  apply Hx. apply list_elem_of_fmap. eauto.
Qed.

(** The batched call never asks for the same identifier twice. *)
Lemma running_ids_NoDup d : wf_dict d -> NoDup (running_ids d).
Proof.
  intros [Hnd Hok]. unfold running_ids.
  apply (NoDup_fmap_1 ToPropertyKey). rewrite <- list_fmap_compose.
  apply NoDup_fmap_filter. change (ToPropertyKey ∘ id) with task_key.
  by rewrite dict_tasks_keys.
Qed.

Lemma dict_tasks_get d t :
  NoDup (dict_keys d) -> t ∈ dict_tasks d -> exists k, dict_get d k = Some t.
Proof.
  intros Hnd [k Hin]%elem_of_dict_tasks. exists k.
  by apply dict_get_elem_of.
Qed.

Lemma running_ids_defined d :
  wf_dict d -> failed_without_id d -> Forall is_Some (running_ids d).
Proof.
  intros [Hnd Hok] Hinv. apply Forall_forall. intros i Hi.
  apply elem_of_running_ids in Hi as (t & Hin & Hrun & <-).
  destruct (dict_tasks_get _ _ Hnd Hin) as [k Hk].
  destruct (id t) as [s|] eqn:Hid; [by eexists|].
  rewrite (Hinv _ _ Hk Hid) in Hrun. done.
Qed.

Lemma executeQueries_failed_without_id files t :
  t ∈ executeQueries files -> id t = None -> status t = FAILED.
Proof.
  unfold executeQueries. intros ([f o] & -> & _)%list_elem_of_fmap.
  by destruct o.
Qed.

Lemma run_failed_without_id files :
  failed_without_id (index_dict (executeQueries files)).
Proof.
  intros k t Hk. apply index_dict_get_elem_of in Hk as Hin.
  exact (executeQueries_failed_without_id files t Hin).
Qed.

Lemma step_failed_without_id p e p' acts d :
  wf_process p -> registry p = Some d -> failed_without_id d ->
  answers_call p e -> step p e = Some (p', acts) ->
  exists d', registry p' = Some d' /\ failed_without_id d'.
Proof.
  intros Hwf Hreg Hinv Hans Hstep.
  destruct (step_registry_identity _ _ _ _ _ Hreg Hstep) as (d' & Hreg' & Hkeys & Hid).
  exists d'. split; [done|]. intros k t' Hk' Hnone.
  destruct (dict_get d k) as [t|] eqn:Hk.
  - destruct (Hid _ _ Hk) as (t1 & Hk1 & _ & _ & Hid1).
    assert (t1 = t') as -> by congruence.
    assert (status t = FAILED) as Hfailed by (apply (Hinv k); congruence).
    destruct (step_keeps_terminal _ _ _ _ _ _ _ Hwf Hreg Hans Hstep Hk)
      as (d1 & Hreg1 & Hk1'); [by rewrite Hfailed|].
    congruence.
  - assert (k ∈ dict_keys d') as Hin by (apply dict_get_is_Some_key; eauto).
    rewrite Hkeys in Hin.
    destruct (wf_process_inv _ Hwf) as (d0 & Hreg0 & [Hnd Hok] & _).
    assert (d0 = d) as -> by congruence.
    apply list_elem_of_fmap in Hin as ([k0 v] & -> & Hin).
    rewrite Forall_forall in Hok. pose proof (Hok _ Hin) as Hslot.
    unfold slot_ok in Hslot. simpl in *. destruct v as [t|]; [|done].
    by rewrite (dict_get_elem_of _ _ _ Hnd Hin) in Hk.
Qed.

Lemma draw_action r st a st' :
  draw r st = (Normal a, st') -> exists rows, a = draw_screen rows.
Proof.
  unfold draw, bind, ret.
  destruct (Object_keys r st) as [[ks|?] st1]; [|done].
  destruct (draw_rows r ks st1) as [[rows|?] st2]; [|done].
  intros [= <- _]. eauto.
Qed.

Lemma finishUp_actions r st acts st' :
  finishUp r st = (Normal acts, st') ->
  exists data, acts = [writeFileSync data; process_exit 0].
Proof.
  unfold finishUp, bind, ret.
  destruct (Object_values r st) as [[vs|?] st1]; [|done].
  intros [= <- _]. eauto.
Qed.

(** The callback of the batched call issues no request. *)
Lemma batch_returns_actions p o :
  (batch_returns p o).2 = [] \/
  (exists err, (batch_returns p o).2 = [console_log err; process_exit 1]) \/
  (exists rows, (batch_returns p o).2 = [draw_screen rows]).
Proof.
  unfold batch_returns.
  destruct (monitor_callback (jobIndex p) o (store p)) as [[[jobs|e]|e] st];
    simpl; [|right; left; eauto|by left].
  unfold interval_resume.
  destruct (consolidateJobs (jobIndex p) jobs st) as [[ji|e] st1]; simpl;
    [|right; left; eauto].
  destruct (draw ji st1) as [[a|e] st2] eqn:Hdraw; simpl; [|right; left; eauto].
  apply draw_action in Hdraw as [rows ->]. right. right. eauto.
Qed.

Lemma stops_resolved_actions p :
  (exists data, (stops_resolved p).2 = [writeFileSync data; process_exit 0]) \/
  (stops_resolved p).2 = [process_exit 0].
Proof.
  unfold stops_resolved.
  destruct (finishUp (INDEX p) (store p)) as [[acts|e] st] eqn:Hf; simpl; [|by right].
  apply finishUp_actions in Hf as [data ->]. left. eauto.
Qed.

(** The requests a step issues are for the identifiers [getRunningJobs]
    collects from the dictionary. *)
Lemma step_requests p e p' acts d :
  wf_process p -> registry p = Some d -> step p e = Some (p', acts) ->
  (forall ids, batchGetQueryExecution ids ∈ acts -> ids = running_ids d) /\
  (forall i, stopQueryExecution i ∈ acts -> i ∈ running_ids d).
Proof.
  intros Hwf Hreg.
  destruct (wf_process_inv _ Hwf) as (d0 & Hreg0 & Hd & Hidx & _).
  assert (d0 = d) as -> by congruence. clear Hreg0.
  apply registry_Some in Hreg as (a & Ha & Hst).
  unfold step. destruct (exited p); [done|]. destruct e as [|o| |k err].
  - destruct (poll_pending p); [done|].
    rewrite (interval_callback_at _ _ _ Ha Hst Hd).
    destruct (running_ids d) as [|i ids] eqn:E; simpl; intros [= ? ?]; subst;
      split.
    + intros ids [[=]|[[=]|[]%elem_of_nil]%elem_of_cons]%elem_of_cons.
    + intros i [[=]|[[=]|[]%elem_of_nil]%elem_of_cons]%elem_of_cons.
    + intros ids' [[= ->]|[]%elem_of_nil]%elem_of_cons. done.
    + intros i' [[=]|[]%elem_of_nil]%elem_of_cons.
  - destruct (poll_pending p); [|done]. intros [= E].
    replace acts with (batch_returns p o).2 by (by rewrite E).
    destruct (batch_returns_actions p o) as [->|[[e ->]|[rows ->]]]; split;
      intros x Hx; repeat (apply elem_of_cons in Hx as [[=]|Hx]);
      by apply elem_of_nil in Hx.
  - destruct (stop_pending p); [done|]. intros [= E].
    replace acts with (sigint_handler p).2 by (by rewrite E).
    destruct Hidx as [Hi|Hi].
    + rewrite (sigint_handler_undefined _ Hi). simpl. split; intros x Hx;
        by apply elem_of_nil in Hx.
    + rewrite Ha in Hi. rewrite (sigint_handler_at _ _ _ Hi Hst Hd).
      destruct (running_ids d) as [|i ids] eqn:Eids; simpl; split; intros x Hx.
      * repeat (apply elem_of_cons in Hx as [[=]|Hx]). by apply elem_of_nil in Hx.
      * repeat (apply elem_of_cons in Hx as [[=]|Hx]). by apply elem_of_nil in Hx.
      * change (batchGetQueryExecution x ∈ stopQueryExecution <$> (i :: ids)) in Hx.
        by apply list_elem_of_fmap in Hx as (? & [=] & _).
      * change (stopQueryExecution x ∈ stopQueryExecution <$> (i :: ids)) in Hx.
        by apply list_elem_of_fmap in Hx as (? & [= ->] & ?).
  - destruct (stop_pending p) as [waiting|]; [|done]. case_decide; [|done].
    intros [= E]. replace acts with (stop_returns p waiting k err).2
      by (by rewrite E).
    unfold stop_returns.
    destruct (remove_first k waiting); simpl.
    + destruct (stops_resolved_actions p) as [[data ->]| ->]; split; intros x Hx;
        repeat (apply elem_of_cons in Hx as [[=]|Hx]); by apply elem_of_nil in Hx.
    + split; intros x Hx; by apply elem_of_nil in Hx.
Qed.

Lemma exec_requests es : forall p p' acts d,
  wf_process p -> registry p = Some d -> failed_without_id d ->
  answers_calls p es -> exec p es = Some (p', acts) ->
  (forall ids, batchGetQueryExecution ids ∈ acts ->
     NoDup ids /\ Forall is_Some ids) /\
  (forall i, stopQueryExecution i ∈ acts -> is_Some i).
Proof.
  induction es as [|e es IH]; intros p p' acts d Hwf Hreg Hinv Hans; simpl.
  - intros [= <- <-]. split; intros x Hx; by apply elem_of_nil in Hx.
  - simpl in Hans. destruct Hans as [Hans1 Hans].
    destruct (step p e) as [[p1 a1]|] eqn:Hstep; [|done].
    destruct (exec p1 es) as [[p2 a2]|] eqn:Hexec; [|done]. intros [= <- <-].
    destruct (step_requests _ _ _ _ _ Hwf Hreg Hstep) as [Hbatch Hstop].
    destruct (step_failed_without_id _ _ _ _ _ Hwf Hreg Hinv Hans1 Hstep)
      as (d1 & Hreg1 & Hinv1).
    destruct (IH _ _ _ _ (step_wf _ _ _ _ Hwf Hstep) Hreg1 Hinv1 Hans Hexec)
      as [IHbatch IHstop].
    destruct (wf_process_inv _ Hwf) as (d0 & Hreg0 & Hd & _).
    assert (d0 = d) as -> by congruence.
    pose proof (running_ids_defined _ Hd Hinv) as Hdef.
    split.
    + intros ids [Hin|Hin]%elem_of_app; [|auto].
      rewrite (Hbatch _ Hin). split; [by apply running_ids_NoDup|done].
    + intros i [Hin|Hin]%elem_of_app; [|auto].
      rewrite Forall_forall in Hdef. auto.
Qed.
End SentIdentifiers.

(** X4.  No request carries an undefined identifier: in every run that
    starts with [run], with a service whose responses answer the calls
    they belong to, the identifiers of every batched status call are
    defined and pairwise distinct, and every stop request is for a defined
    identifier.  A task whose submission failed is never polled and never
    stopped. *)
Theorem requests_carry_identifiers (files : list (File * StartOutcome))
    (es : list Event) (p : Process) (acts : list Action) :
  answers_calls (run files) es -> exec (run files) es = Some (p, acts) ->
  (forall ids, batchGetQueryExecution ids ∈ acts ->
     NoDup ids /\ Forall is_Some ids) /\
  (forall i, stopQueryExecution i ∈ acts -> is_Some i).
Proof.
  intros Hans Hexec.
  eapply (exec_requests es (run files)); eauto using run_wf.
  - by rewrite run_eq.
  - apply run_failed_without_id.
Qed.

(** ** Responses with unknown identifiers, and successful cycles *)

Section Cycles.
Implicit Types (p : Process) (d : Dict) (st : Store).

Lemma all_defined_undefined (ws1 ws2 : list Write) (w : Write) d :
  dict_get d w.1 = None -> all_defined (ws1 ++ w :: ws2) d = false.
Proof.
  intros Hw. rewrite all_defined_app. unfold all_defined at 2. simpl.
  rewrite bool_decide_eq_false_2; [by rewrite andb_false_r|].
  rewrite Hw. by intros [? [=]].
Qed.

Lemma applied_undefined (ws1 ws2 : list Write) (w : Write) d :
  all_defined ws1 d = true -> dict_get d w.1 = None ->
  applied (ws1 ++ w :: ws2) d = ws1.
Proof.
  intros H1 Hw. rewrite applied_app, H1. simpl. rewrite Hw. apply app_nil_r.
Qed.

Lemma draw_rows_at st a d (rest : Dict) :
  st !! a = Some d -> NoDup (dict_keys d) -> rest ⊆ d -> Forall slot_ok rest ->
  draw_rows (Some a) (dict_keys rest) st = (Normal (dict_tasks rest), st).
Proof.
  intros H Hnd. induction rest as [|[k v] rest IH]; intros Hsub Hok; csimpl; [done|].
  apply Forall_cons in Hok as [Hkv Hok]. destruct v as [t|]; [|done].
  unfold bind at 1. rewrite (get_at _ _ _ _ H).
  rewrite (dict_get_elem_of d k (Some t)) by (auto; apply Hsub; left).
  unfold bind, to_object, ret. rewrite IH; [done| |done].
  intros x Hx. apply Hsub. by right.
Qed.

Lemma draw_at st a d :
  st !! a = Some d -> wf_dict d ->
  draw (Some a) st = (Normal (draw_screen (dict_tasks d)), st).
Proof.
  intros H [Hnd Hok]. unfold draw. unfold bind at 1.
  rewrite (Object_keys_at _ _ _ H). unfold bind.
  by rewrite (draw_rows_at _ _ _ _ H Hnd).
Qed.
(** The callback of a batched call whose response mentions only keys of
    the dictionary. *)
Lemma batch_returns_ok_at p a d (results : BatchResults) :
  jobIndex p = Some a -> store p !! a = Some d -> wf_dict d ->
  Forall (fun k => is_Some (dict_get d k)) (mentioned results) ->
  batch_returns p (BatchOk results)
  = (mkProcess (<[a := alter_all (writes_of results) d]> (store p))
               (Some a) (Some a) None (stop_pending p) None,
     [draw_screen (dict_tasks (alter_all (writes_of results) d))]).
Proof.
  intros Ha Hst Hwf Hknown.
  rewrite <- writes_of_keys in Hknown. pose proof Hknown as Hall.
  apply all_defined_Forall in Hall.
  unfold writes_of in Hknown. rewrite fmap_app in Hknown.
  apply Forall_app in Hknown as [Hitems Hus].
  apply all_defined_Forall in Hitems, Hus.
  unfold batch_returns, monitor_callback.
  rewrite Ha. unfold bind at 1.
  rewrite (forEach_monitor_item_at _ _ _ _ Hst). rewrite Hitems.
  rewrite (applied_all_defined _ _ Hitems). unfold ret at 1.
  unfold interval_resume. rewrite Ha.
  rewrite (consolidateJobs_at _ _ _ _ (lookup_insert_store _ _ _ _ Hst)).
  rewrite all_defined_alter_all, applied_alter_all, Hus.
  rewrite (applied_all_defined _ _ Hus), list_insert_insert_eq, <- alter_all_app.
  change (_ ++ _) with (writes_of results).
  by rewrite (draw_at _ a (alter_all (writes_of results) d));
    [|by apply (lookup_insert_store _ _ d)|by apply alter_all_wf].
Qed.

(** The status the writes to a key leave: none where the key is not
    written, and a terminal one where every write sets a terminal one. *)
Lemma patch_for_terminal (k : string) (ws : list Write) :
  Forall (fun w => exists s, p_status w.2 = Some s /\ is_terminal s) ws ->
  match p_status (patch_for k ws) return Prop with
  | Some s => is_terminal s
  | None => k ∉ ws.*1
  end.
Proof.
  induction 1 as [|w ws (s & Hs & Hterm) Hws IH]; csimpl.
  - apply not_elem_of_nil.
  - destruct (decide (w.1 = k)) as [Hk|Hk]; simpl.
    + destruct (p_status (patch_for k ws)) as [s'|]; simpl; [done|].
      by rewrite Hs.
    + destruct (p_status (patch_for k ws)) as [s'|]; [done|].
      by apply not_elem_of_cons.
Qed.

Lemma writes_of_terminal (results : BatchResults) :
  Forall (fun item => is_terminal (State item)) (QueryExecutions results) ->
  Forall (fun w => exists s, p_status w.2 = Some s /\ is_terminal s)
         (writes_of results).
Proof.
  intros Hitems. unfold writes_of. apply Forall_app. split.
  - apply Forall_fmap. eapply Forall_impl; [exact Hitems|].
    intros item Hterm. simpl. eauto.
  - apply Forall_fmap, Forall_forall. intros u _. simpl. by exists FAILED.
Qed.

(** After a response with a terminal state for every queued or running
    task, every task is terminal. *)
Lemma alter_all_terminal d (results : BatchResults) :
  wf_dict d ->
  Forall (fun item => is_terminal (State item)) (QueryExecutions results) ->
  (forall t, t ∈ dict_tasks d -> is_running (status t) ->
     task_key t ∈ mentioned results) ->
  all_terminal (alter_all (writes_of results) d).
Proof.
  intros [Hnd Hok] Hitems Hrun. apply Forall_forall. intros t' Ht'.
  apply dict_tasks_get in Ht' as [k Hk]; [|by rewrite alter_all_keys].
  rewrite alter_all_get in Hk.
  destruct (dict_get d k) as [t|] eqn:Hget; [|done]. injection Hk as <-.
  apply dict_get_Some_elem_of in Hget.
  assert (task_key t = k) as Hkey.
  { rewrite Forall_forall in Hok. apply (Hok _ Hget). }
  assert (t ∈ dict_tasks d) as Ht by (apply elem_of_dict_tasks; eauto).
  pose proof (patch_for_terminal k _ (writes_of_terminal _ Hitems)) as Hp.
  simpl. destruct (p_status (patch_for k (writes_of results))) as [s|]; simpl; [done|].
  rewrite writes_of_keys in Hp.
  destruct (is_running (status t)) eqn:Hr.
  - destruct Hp. rewrite <- Hkey. apply Hrun; [done|by rewrite Hr].
  - by destruct (status t).
Qed.
End Cycles.



(** X7.  A cycle whose response mentions only keys of the dictionary
    succeeds: it makes the writes of the response, assigns the dictionary
    to [INDEX], draws every task once, in the order of the keys and with
    the values just written, and leaves the process running with no call
    in flight. *)
Theorem successful_cycle (p : Process) (d : Dict) (ids : list (option string))
    (results : BatchResults) :
  registry p = Some d -> wf_dict d -> exited p = None -> poll_pending p = Some ids ->
  Forall (fun k => is_Some (dict_get d k)) (mentioned results) ->
  exists p',
    step p (BatchReturns (BatchOk results))
    = Some (p', [draw_screen (dict_tasks (alter_all (writes_of results) d))]) /\
    registry p' = Some (alter_all (writes_of results) d) /\
    INDEX p' = jobIndex p /\
    poll_pending p' = None /\ exited p' = None.
Proof.
  intros Hreg Hwf Hex Hpoll Hknown.
  apply registry_Some in Hreg as (a & Ha & Hst).
  unfold step. rewrite Hex, Hpoll.
  rewrite (batch_returns_ok_at _ _ _ _ Ha Hst Hwf Hknown).
  eexists. split; [done|]. simpl. split; [|by rewrite Ha].
  unfold registry. simpl. by apply (lookup_insert_store _ _ d).
Qed.

(** ** The results file *)

Section ResultsFile.
Implicit Types (p : Process) (acts : list Action).

Lemma no_write_nil : no_write [].
Proof. intros data Hin. by apply elem_of_nil in Hin. Qed.

Lemma no_write_app acts1 acts2 :
  no_write acts1 -> no_write acts2 -> no_write (acts1 ++ acts2).
Proof. intros H1 H2 data [?|?]%elem_of_app; [by eapply H1|by eapply H2]. Qed.

Lemma no_write_stops (ids : list (option string)) :
  no_write (stopQueryExecution <$> ids).
Proof. by intros data (? & [=] & _)%list_elem_of_fmap. Qed.

(** A step writes no results file, or ends with writing it and exiting
    with code 0. *)
Lemma step_writes p e p' acts :
  step p e = Some (p', acts) ->
  no_write acts \/
  exists pre data,
    acts = pre ++ [writeFileSync data; process_exit 0] /\
    no_write pre /\ exited p' = Some (Exited 0).
Proof.
  unfold step. destruct (exited p); [done|]. destruct e as [|o| |k err].
  - destruct (poll_pending p); [done|]. unfold interval_callback.
    destruct (monitor (jobIndex p) (store p)) as [[[ids|]|err] st].
    + intros [= <- <-]. left.
      intros data [[=]|[]%elem_of_nil]%elem_of_cons.
    + destruct (finishUp (jobIndex p) st) as [[acts0|err] st'] eqn:Hf.
      * apply finishUp_actions in Hf as [data ->]. intros [= <- <-]. right.
        exists [], data. split; [done|]. split; [apply no_write_nil|done].
      * intros [= <- <-]. left.
        intros data [[=]|[[=]|[]%elem_of_nil]%elem_of_cons]%elem_of_cons.
    + intros [= <- <-]. left.
      intros data [[=]|[[=]|[]%elem_of_nil]%elem_of_cons]%elem_of_cons.
  - destruct (poll_pending p); [|done]. intros [= E].
    replace acts with (batch_returns p o).2 by (by rewrite E). left.
    destruct (batch_returns_actions p o) as [->|[[err ->]|[rows ->]]];
      intros data Hx; repeat (apply elem_of_cons in Hx as [[=]|Hx]);
      by apply elem_of_nil in Hx.
  - destruct (stop_pending p); [done|]. unfold sigint_handler.
    destruct (getRunningJobs (INDEX p) (store p)) as [[[|i ids]|err] st].
    + pose proof (stops_resolved_frame p) as (_ & _ & _ & _ & Hex).
      destruct (stops_resolved_actions p) as [[data Hacts]|Hacts];
        destruct (stops_resolved p) as [q acts0]; simpl in *; subst;
        intros [= <- <-].
      * right. exists [], data. split; [done|]. split; [apply no_write_nil|done].
      * left. intros data [[=]|[]%elem_of_nil]%elem_of_cons.
    + intros [= <- <-]. left. apply (no_write_stops (i :: ids)).
    + intros [= <- <-]. left. apply no_write_nil.
  - destruct (stop_pending p) as [waiting|]; [|done]. case_decide; [|done].
    unfold stop_returns. destruct (remove_first k waiting).
    + pose proof (stops_resolved_frame p) as (_ & _ & _ & _ & Hex).
      destruct (stops_resolved_actions p) as [[data Hacts]|Hacts];
        destruct (stops_resolved p) as [q acts0]; simpl in *; subst;
        intros [= <- <-].
      * right. exists [], data. split; [done|]. split; [apply no_write_nil|done].
      * left. intros data [[=]|[]%elem_of_nil]%elem_of_cons.
    + intros [= <- <-]. left. apply no_write_nil.
Qed.
End ResultsFile.

(** X8.  The results file is written at most once in a run, and only as
    the last thing the process does before it exits with code 0: a run
    that ends with exit code 1 or with an uncaught exception has written
    no results. *)
Theorem results_written_once (es : list Event) :
  forall (p p' : Process) (acts : list Action) (data : string),
    exec p es = Some (p', acts) -> writeFileSync data ∈ acts ->
    exists pre,
      acts = pre ++ [writeFileSync data; process_exit 0] /\
      (forall data', writeFileSync data' ∉ pre) /\
      exited p' = Some (Exited 0).
Proof.
  induction es as [|e es IH]; intros p p' acts data; simpl.
  - intros [= <- <-] Hin. by apply elem_of_nil in Hin.
  - destruct (step p e) as [[p1 a1]|] eqn:Hstep; [|done].
    destruct (exec p1 es) as [[p2 a2]|] eqn:Hexec; [|done]. intros [= <- <-] Hin.
    destruct (step_writes _ _ _ _ Hstep) as [Hno|(pre & data0 & -> & Hpre & Hex)].
    + apply elem_of_app in Hin as [Hin|Hin]; [by destruct (Hno data)|].
      destruct (IH _ _ _ _ Hexec Hin) as (pre2 & -> & Hpre2 & Hex2).
      exists (a1 ++ pre2). rewrite app_assoc. split; [done|].
      split; [by apply no_write_app|done].
    + assert (es = []) as -> by (eapply exec_exited; [|done]; by rewrite Hex).
      simpl in Hexec. injection Hexec as <- <-. rewrite app_nil_r in *.
      apply elem_of_app in Hin as [Hin|Hin]; [by destruct (Hpre data)|].
      apply elem_of_cons in Hin as [[= ->]|Hin].
      * by exists pre.
      * apply elem_of_cons in Hin as [[=]|Hin]. by apply elem_of_nil in Hin.
Qed.

(** ** What writes the store *)

(** X9.  Collecting the running jobs, starting a poll, drawing the screen
    and writing the results only read the store, for every reference and
    every store, also where they throw. *)
Theorem reading_leaves_store (r : JsRef) (st : Store) :
  (getRunningJobs r st).2 = st /\
  (monitor r st).2 = st /\
  (draw r st).2 = st /\
  (finishUp r st).2 = st.
Proof.
  split; [apply getRunningJobs_store|]. split; [apply monitor_store|].
  split; [apply draw_store|apply finishUp_store].
Qed.

Lemma step_store_other (p : Process) (e : Event) (p' : Process)
    (acts : list Action) :
  step p e = Some (p', acts) ->
  (forall results, e <> BatchReturns (BatchOk results)) ->
  store p' = store p.
Proof.
  intros Hstep Hne. destruct e as [|[message|results]| |k err].
  - revert Hstep. unfold step. destruct (exited p); [done|].
    destruct (poll_pending p); [done|]. intros [= E].
    pose proof (interval_callback_store p) as Hs. by rewrite E in Hs.
  - revert Hstep. unfold step. destruct (exited p); [done|].
    destruct (poll_pending p); [|done]. rewrite batch_returns_error.
    by intros [= <- _].
  - by destruct (Hne results).
  - eapply interrupt_steps_keep_store; [done|by left].
  - eapply interrupt_steps_keep_store; [done|right; eauto].
Qed.

(** X10.  The store is written by nothing but the callback of a batched
    call that succeeded: a run in which no such callback runs (timer
    ticks, failed calls, the interrupt and its stop requests) ends with
    the store it started with. *)
Theorem store_written_by_consolidation_only (es : list Event) :
  forall (p p' : Process) (acts : list Action),
    exec p es = Some (p', acts) ->
    (forall results, BatchReturns (BatchOk results) ∉ es) ->
    store p' = store p.
Proof.
  induction es as [|e es IH]; intros p p' acts; simpl.
  - by intros [= <- _] _.
  - destruct (step p e) as [[p1 a1]|] eqn:Hstep; [|done].
    destruct (exec p1 es) as [[p2 a2]|] eqn:Hexec; [|done]. intros [= <- _] Hne.
    rewrite (IH _ _ _ Hexec); [|intros results Hin; apply (Hne results); by right].
    eapply step_store_other; [done|]. intros results ->. apply (Hne results). left.
Qed.

(** ** [consolidateJobs] with another dictionary *)

Section Copy.
Implicit Types (st : Store) (d r : Dict) (k : string).

Lemma dict_copy_keys r d : dict_keys (dict_copy r d) = dict_keys d.
Proof. unfold dict_copy, dict_keys. by rewrite <- list_fmap_compose. Qed.

Lemma dict_copy_get r d k :
  dict_get (dict_copy r d) k
  = if decide (k ∈ dict_keys d) then dict_get r k else None.
Proof.
  unfold dict_copy, dict_keys. induction d as [|[k' v] d IH]; csimpl; [done|].
  destruct (decide (k' = k)) as [->|Hne].
  - rewrite decide_True; [done|left].
  - rewrite IH. destruct (decide (k ∈ d.*1)) as [Hin|Hnin].
    + rewrite decide_True; [done|by right].
    + rewrite decide_False; [done|]. by intros [?|?]%elem_of_cons.
Qed.

Lemma foldl_copy_keys r (ks : list string) : forall d,
  ks ⊆ dict_keys d ->
  dict_keys (foldl (fun d k => dict_set d k (dict_get r k)) d ks) = dict_keys d.
Proof.
  induction ks as [|k ks IH]; intros d Hks; simpl; [done|].
  assert (k ∈ dict_keys d) as Hk by (apply Hks; left).
  rewrite IH; rewrite dict_keys_set_in by done; [done|].
  intros x Hx. apply Hks. by right.
Qed.

Lemma foldl_copy_get r (ks : list string) k : forall d,
  dict_get (foldl (fun d k => dict_set d k (dict_get r k)) d ks) k
  = if decide (k ∈ ks) then dict_get r k else dict_get d k.
Proof.
  induction ks as [|k' ks IH]; intros d; simpl; [done|]. rewrite IH.
  destruct (decide (k ∈ ks)) as [Hin|Hnin].
  - rewrite decide_True; [done|by right].
  - destruct (decide (k' = k)) as [->|Hne].
    + rewrite dict_get_set_eq. rewrite decide_True; [done|left].
    + rewrite dict_get_set_ne by done. rewrite decide_False; [done|].
      intros [?|?]%elem_of_cons; congruence.
Qed.

Lemma foldl_copy r d :
  NoDup (dict_keys d) ->
  foldl (fun d k => dict_set d k (dict_get r k)) d (dict_keys d) = dict_copy r d.
Proof.
  intros Hnd. symmetry. apply dict_ext.
  - by rewrite dict_copy_keys.
  - by rewrite dict_copy_keys, foldl_copy_keys.
  - intros k Hk. rewrite dict_copy_keys in Hk.
    by rewrite dict_copy_get, foldl_copy_get, !decide_True.
Qed.

Lemma consolidate_copy_other st (a b : ref) r (ks : list string) : forall d,
  a <> b -> st !! a = Some d -> st !! b = Some r ->
  forEach ks (fun k => let! v := get (Some b) k in put (Some a) k v) st
  = (Normal tt, <[a := foldl (fun d k => dict_set d k (dict_get r k)) d ks]> st).
Proof.
  revert st. induction ks as [|k ks IH]; intros st d Hab Ha Hb; simpl.
  - unfold ret. by rewrite list_insert_id.
  - unfold bind at 1. unfold bind at 1. rewrite (get_at _ _ _ _ Hb).
    rewrite (put_at _ _ _ _ _ Ha).
    rewrite (IH _ (dict_set d k (dict_get r k))); [|done| |].
    + by rewrite list_insert_insert_eq.
    + by apply (lookup_insert_store _ _ d).
    + by rewrite list_lookup_insert_ne.
Qed.
End Copy.


(** ** The run time on the status screen *)

Lemma below_cases (P : N -> Prop) (n : nat) :
  (forall k, (k < n)%nat -> P (N.of_nat k)) -> forall s, (s < N.of_nat n)%N -> P s.
Proof.
  intros H s Hs. rewrite <- (N2Nat.id s). apply H. lia.
Qed.

(** The seconds of [millisToMinutesAndSeconds] are printed with two
    digits and read back as the number they stand for. *)
Lemma seconds_text (s : N) :
  (s <= 60)%N ->
  let text := ((if (s <? 10)%N then "0" else EmptyString) ++ decimal s)%string in
  String.length text = 2%nat /\
  N.of_uint <$> NilEmpty.uint_of_string text = Some s.
Proof.
  intros Hs. revert s Hs. 
  cut (forall s, (s < N.of_nat 61)%N ->
         String.length ((if (s <? 10)%N then "0" else EmptyString) ++ decimal s)%string = 2%nat /\
         N.of_uint <$> NilEmpty.uint_of_string
           ((if (s <? 10)%N then "0" else EmptyString) ++ decimal s)%string = Some s).
  { intros H s Hs. apply H. lia. }
  apply below_cases. intros k Hk.
  do 61 (destruct k as [|k]; [by vm_compute|]). lia.
Qed.


(** ** The query files *)

Section Files.
Variable path_join : string -> string -> string.
Implicit Types (dir file : string) (entries : list (string * Node)).

(** The accumulator of the [reduce] in [getAllFiles] stays in front. *)
Lemma getAllFiles_reduce dir entries : forall files : list string,
  (fix reduce (files : list string) (entries : list (string * Node))
     : list string :=
     match entries with
     | [] => files
     | (file, n) :: entries' =>
         reduce (files ++ getAllFiles_node path_join (path_join dir file) n)
                entries'
     end) files entries
  = files ++ getAllFiles path_join dir entries.
Proof.
  unfold getAllFiles.
  induction entries as [|[file n] entries IH]; intros files; simpl.
  - by rewrite app_nil_r.
  - rewrite IH. symmetry. rewrite IH. by rewrite app_assoc.
Qed.

Lemma getAllFiles_cons dir file n entries :
  getAllFiles path_join dir ((file, n) :: entries)
  = getAllFiles_node path_join (path_join dir file) n
    ++ getAllFiles path_join dir entries.
Proof.
  unfold getAllFiles at 1. simpl. by rewrite getAllFiles_reduce.
Qed.

Lemma getAllFiles_app dir entries1 entries2 :
  getAllFiles path_join dir (entries1 ++ entries2)
  = getAllFiles path_join dir entries1 ++ getAllFiles path_join dir entries2.
Proof.
  induction entries1 as [|[file n] entries1 IH]; [done|].
  simpl. by rewrite !getAllFiles_cons, IH, app_assoc.
Qed.

Lemma getAllFiles_node_length : forall (node : Node) (name : string),
  length (getAllFiles_node path_join name node) = count_files node.
Proof.
  fix IH 1. intros [|entries] name; [done|].
  change (getAllFiles_node path_join name (DirNode entries))
    with (getAllFiles path_join name entries).
  simpl. induction entries as [|[file n] entries IHe]; [done|].
  rewrite getAllFiles_cons, length_app, IH. csimpl. by rewrite IHe.
Qed.
End Files.

(** X13.  [getAllFiles] lists the files of a directory tree depth first,
    in the order in which the directories are read: a file contributes
    its joined name, a directory everything below it under its joined
    name, before the entries that follow.  Directories themselves are not
    listed, so the result has one name for every file of the tree and a
    directory without files contributes nothing. *)
Theorem getAllFiles_depth_first (path_join : string -> string -> string)
    (dir : string) :
  getAllFiles path_join dir [] = [] /\
  (forall file entries,
     getAllFiles path_join dir ((file, FileNode) :: entries)
     = path_join dir file :: getAllFiles path_join dir entries) /\
  (forall file sub entries,
     getAllFiles path_join dir ((file, DirNode sub) :: entries)
     = getAllFiles path_join (path_join dir file) sub
       ++ getAllFiles path_join dir entries) /\
  (forall entries1 entries2,
     getAllFiles path_join dir (entries1 ++ entries2)
     = getAllFiles path_join dir entries1 ++ getAllFiles path_join dir entries2) /\
  (forall entries,
     length (getAllFiles path_join dir entries) = count_files (DirNode entries)).
Proof.
  split; [done|]. split; [intros; apply getAllFiles_cons|].
  split; [intros; apply getAllFiles_cons|].
  split; [apply getAllFiles_app|].
  intros entries. apply getAllFiles_node_length.
Qed.

(** ** How the process ends *)

Section Exit.
Implicit Types (p : Process) (acts : list Action).

Lemma no_exit_nil : no_exit [].
Proof. intros c Hin. by apply elem_of_nil in Hin. Qed.

Lemma no_exit_app acts1 acts2 :
  no_exit acts1 -> no_exit acts2 -> no_exit (acts1 ++ acts2).
Proof. intros H1 H2 c [?|?]%elem_of_app; [by eapply H1|by eapply H2]. Qed.

Lemma no_exit_stops (ids : list (option string)) :
  no_exit (stopQueryExecution <$> ids).
Proof. by intros c (? & [=] & _)%list_elem_of_fmap. Qed.

Ltac no_exit_list :=
  let c := fresh "c" in let Hx := fresh "Hx" in
  intros c Hx; repeat (apply elem_of_cons in Hx as [[=]|Hx]);
  by apply elem_of_nil in Hx.

Lemma stops_resolved_exit p : exit_outcome (stops_resolved p).1 (stops_resolved p).2.
Proof.
  unfold exit_outcome.
  pose proof (stops_resolved_frame p) as (_ & _ & _ & _ & ->).
  split; [by left|].
  destruct (stops_resolved_actions p) as [[data ->]| ->].
  - exists [writeFileSync data]. split; [done|no_exit_list].
  - exists []. split; [done|apply no_exit_nil].
Qed.

Lemma step_exit p e p' acts :
  step p e = Some (p', acts) -> exit_outcome p' acts.
Proof.
  unfold step. destruct (exited p); [done|]. destruct e as [|o| |k err].
  - destruct (poll_pending p); [done|]. unfold interval_callback.
    destruct (monitor (jobIndex p) (store p)) as [[[ids|]|err] st].
    + intros [= <- <-]. unfold exit_outcome; simpl. no_exit_list.
    + destruct (finishUp (jobIndex p) st) as [[acts0|err] st'] eqn:Hf.
      * apply finishUp_actions in Hf as [data ->]. intros [= <- <-].
        unfold exit_outcome; simpl. split; [by left|].
        exists [writeFileSync data]. split; [done|no_exit_list].
      * intros [= <- <-]. unfold exit_outcome; simpl. split; [by right|].
        exists [console_log err]. split; [done|no_exit_list].
    + intros [= <- <-]. unfold exit_outcome; simpl. split; [by right|].
      exists [console_log err]. split; [done|no_exit_list].
  - destruct (poll_pending p); [|done]. intros [= E].
    replace p' with (batch_returns p o).1 by (by rewrite E).
    replace acts with (batch_returns p o).2 by (by rewrite E). clear E.
    unfold batch_returns, exit_outcome.
    destruct (monitor_callback (jobIndex p) o (store p)) as [[[jobs|err]|err] st];
      simpl.
    + unfold interval_resume.
      destruct (consolidateJobs (jobIndex p) jobs st) as [[ji|err] st1]; simpl.
      * destruct (draw ji st1) as [[a|err] st2] eqn:Hdraw; simpl.
        -- apply draw_action in Hdraw as [rows ->]. no_exit_list.
        -- split; [by right|]. exists [console_log err]. split; [done|no_exit_list].
      * split; [by right|]. exists [console_log err]. split; [done|no_exit_list].
    + split; [by right|]. exists [console_log err]. split; [done|no_exit_list].
    + apply no_exit_nil.
  - destruct (stop_pending p); [done|]. unfold sigint_handler.
    destruct (getRunningJobs (INDEX p) (store p)) as [[[|i ids]|err] st].
    + pose proof (stops_resolved_exit p) as Hex.
      destruct (stops_resolved p) as [q acts0]. by intros [= <- <-].
    + intros [= <- <-]. unfold exit_outcome; simpl.
      apply (no_exit_stops (i :: ids)).
    + intros [= <- <-]. unfold exit_outcome; simpl. apply no_exit_nil.
  - destruct (stop_pending p) as [waiting|]; [|done]. case_decide; [|done].
    unfold stop_returns. destruct (remove_first k waiting).
    + pose proof (stops_resolved_exit p) as Hex.
      destruct (stops_resolved p) as [q acts0]. by intros [= <- <-].
    + intros [= <- <-]. unfold exit_outcome; simpl. apply no_exit_nil.
Qed.
End Exit.

(** X14.  A run that ends with an exit code ends with [process.exit] of
    that code as its last action and calls [process.exit] nowhere before;
    the code is 0 or 1.  A run that has not ended, or that ended with an
    uncaught exception, has not called [process.exit]. *)
Theorem exit_is_last_action (es : list Event) :
  forall (p p' : Process) (acts : list Action),
    exited p = None -> exec p es = Some (p', acts) ->
    match exited p' with
    | Some (Exited code) =>
        (code = 0 \/ code = 1) /\
        exists pre, acts = pre ++ [process_exit code] /\ no_exit pre
    | _ => no_exit acts
    end.
Proof.
  induction es as [|e es IH]; intros p p' acts Hp; simpl.
  - intros [= <- <-]. rewrite Hp. apply no_exit_nil.
  - destruct (step p e) as [[p1 a1]|] eqn:Hstep; [|done].
    destruct (exec p1 es) as [[p2 a2]|] eqn:Hexec; [|done]. intros [= <- <-].
    pose proof (step_exit _ _ _ _ Hstep) as H1. unfold exit_outcome in H1.
    destruct (exited p1) as [x|] eqn:Hx.
    + assert (es = []) as -> by (eapply exec_exited; [|done]; by rewrite Hx).
      simpl in Hexec. injection Hexec as <- <-. rewrite app_nil_r, Hx. done.
    + specialize (IH _ _ _ Hx Hexec).
      destruct (exited p2) as [[code|err]|].
      * destruct IH as (Hc & pre & -> & Hpre). split; [done|].
        exists (a1 ++ pre). rewrite app_assoc. split; [done|].
        by apply no_exit_app.
      * by apply no_exit_app.
      * by apply no_exit_app.
Qed.

(** ** The properties on the example run *)


(** The requests of the example run with an interrupt after its first
    cycle and a cycle after the interrupt. *)
Lemma requests_carry_identifiers_witness :
  (forall ids, batchGetQueryExecution ids ∈ ex_after_late_tick.2 ->
     NoDup ids /\ Forall is_Some ids) /\
  (forall i, stopQueryExecution i ∈ ex_after_late_tick.2 -> is_Some i).
Proof.
  apply (requests_carry_identifiers ex_files
           ([Tick; BatchReturns (BatchOk ex_results)] ++ SIGINT :: [] ++ [Tick])
           ex_after_late_tick.1 ex_after_late_tick.2).
  - cbn. repeat split; apply (bool_decide_unpack _); vm_compute; exact I.
  - vm_compute. reflexivity.
Defined.



(** The first cycle of the example run. *)
Lemma successful_cycle_witness :
  exists p',
    step ex_in_flight.1 (BatchReturns (BatchOk ex_results))
    = Some (p', [draw_screen (dict_tasks ex_polled_dict)]) /\
    registry p' = Some ex_polled_dict /\
    INDEX p' = jobIndex ex_in_flight.1 /\
    poll_pending p' = None /\ exited p' = None.
Proof.
  apply (successful_cycle ex_in_flight.1 ex_dict [Some "q-2"; Some "q-3"]
           ex_results).
  - reflexivity.
  - apply (bool_decide_unpack _); vm_compute; exact I.
  - reflexivity.
  - reflexivity.
  - apply (bool_decide_unpack _); vm_compute; exact I.
Defined.

(** The interrupted example run writes its results once, at its end. *)
Lemma results_written_once_witness :
  exists pre,
    ex_interrupted.2
    = pre ++ [writeFileSync (JSON_stringify (dict_values ex_polled_dict));
              process_exit 0] /\
    (forall data', writeFileSync data' ∉ pre) /\
    exited ex_interrupted.1 = Some (Exited 0).
Proof.
  apply (results_written_once
           [SIGINT; StopReturns (Some "q-3") (Some "not found")]
           ex_polled ex_interrupted.1 ex_interrupted.2
           (JSON_stringify (dict_values ex_polled_dict))).
  - vm_compute. reflexivity.
  - vm_compute. right. left.
Defined.

(** The cycle of the example run whose call fails leaves the store. *)
Lemma store_written_by_consolidation_only_witness :
  store ex_after_error.1 = store ex_polled.
Proof.
  apply (store_written_by_consolidation_only
           [Tick; BatchReturns (BatchError "socket hang up")]
           ex_polled ex_after_error.1 ex_after_error.2).
  - vm_compute. reflexivity.
  - intros results Hin.
    apply elem_of_cons in Hin as [Hin|Hin]; [discriminate Hin|].
    apply elem_of_cons in Hin as [Hin|Hin]; [discriminate Hin|].
    apply elem_of_nil in Hin. exact Hin.
Defined.


(** The cycle of the example run whose call fails ends with exit code 1. *)
Lemma exit_is_last_action_witness :
  match exited ex_after_error.1 with
  | Some (Exited code) =>
      (code = 0 \/ code = 1) /\
      exists pre, ex_after_error.2 = pre ++ [process_exit code] /\ no_exit pre
  | _ => no_exit ex_after_error.2
  end.
Proof.
  apply (exit_is_last_action [Tick; BatchReturns (BatchError "socket hang up")]
           ex_polled ex_after_error.1 ex_after_error.2).
  - reflexivity.
  - vm_compute. reflexivity.
Defined.

(** ** A run to its end *)

(** X15.  When the service answers a poll with a terminal state, or as
    unprocessed, for every task that was queued or running, the run ends
    at the next firing of the timer: the process asks once about the
    queued and running tasks, draws the updated tasks, then writes them as
    the results and exits with code 0, without asking again. *)
Theorem run_ends_after_terminal_answer (p : Process) (d : Dict)
    (results : BatchResults) :
  registry p = Some d -> wf_dict d -> exited p = None -> poll_pending p = None ->
  running_ids d <> [] ->
  Forall (fun k => is_Some (dict_get d k)) (mentioned results) ->
  Forall (fun item => is_terminal (State item)) (QueryExecutions results) ->
  (forall t, t ∈ dict_tasks d -> is_running (status t) ->
     task_key t ∈ mentioned results) ->
  let d' := alter_all (writes_of results) d in
  exists p',
    exec p [Tick; BatchReturns (BatchOk results); Tick]
    = Some (p', [batchGetQueryExecution (running_ids d);
                 draw_screen (dict_tasks d');
                 writeFileSync (JSON_stringify (dict_values d'));
                 process_exit 0]) /\
    registry p' = Some d' /\ all_terminal d' /\
    exited p' = Some (Exited 0).
Proof.
  intros Hreg Hwf Hex Hpoll Hids Hknown Hitems Hrun d'.
  apply registry_Some in Hreg as (a & Ha & Hst).
  assert (wf_dict d') as Hwf' by (by apply alter_all_wf).
  assert (all_terminal d') as Hterm by (by apply alter_all_terminal).
  pose proof Hterm as Hnil. apply running_ids_nil in Hnil.
  simpl. unfold step at 1. rewrite Hex, Hpoll.
  rewrite (interval_callback_at _ _ _ Ha Hst Hwf).
  destruct (running_ids d) as [|i ids] eqn:Eids; [done|].
  unfold step at 1. simpl.
  rewrite (batch_returns_ok_at _ a d results); [|done|done|done|done].
  unfold step at 1. simpl.
  rewrite (interval_callback_at _ a d'); simpl;
    [|done|by apply (lookup_insert_store _ _ d)|done].
  fold d'. rewrite Hnil. simpl.
  eexists. split; [done|]. split; [|done].
  unfold registry. simpl. by apply (lookup_insert_store _ _ d).
Qed.

(** The first cycle of the example run answered with a terminal state for
    both submitted queries. *)
Lemma run_ends_after_terminal_answer_witness :
  let d' := alter_all (writes_of ex_final_results) ex_dict in
  exists p',
    exec (run ex_files) [Tick; BatchReturns (BatchOk ex_final_results); Tick]
    = Some (p', [batchGetQueryExecution (running_ids ex_dict);
                 draw_screen (dict_tasks d');
                 writeFileSync (JSON_stringify (dict_values d'));
                 process_exit 0]) /\
    registry p' = Some d' /\ all_terminal d' /\
    exited p' = Some (Exited 0).
Proof.
  apply (run_ends_after_terminal_answer (run ex_files) ex_dict ex_final_results).
  - reflexivity.
  - apply (bool_decide_unpack _); vm_compute; exact I.
  - reflexivity.
  - reflexivity.
  - discriminate.
  - apply (bool_decide_unpack _); vm_compute; exact I.
  - apply (bool_decide_unpack _); vm_compute; exact I.
  - assert (Forall (fun t => is_running (status t) ->
                             task_key t ∈ mentioned ex_final_results)
                   (dict_tasks ex_dict)) as Hall
      by (apply (bool_decide_unpack _); vm_compute; exact I).
    intros t Ht Hr. exact (proj1 (Forall_forall _ _) Hall t Ht Hr).
Defined.
